(** * Verification of the orchestration core of the parliamentary
    intelligence pipeline

  Shallow embedding of [src/utils/retry.py], [src/utils/metrics.py],
  [src/modules/analysis.py], [src/modules/transcription.py] and the
  processing functions of [app.py].

  Conventions of the embedding:
  - Python [float] seconds are exact rationals ([Q]); every call site
    of [async_retry] passes the integers [delay=1], [backoff=2], for
    which Python's arithmetic is exact as well.
  - A Python [str] is held as the bytes of its UTF-8 encoding
    ([string]); where the code works on characters, the bytes of each
    character are taken together.
  - Time is a virtual clock: awaiting a coroutine or sleeping moves it
    forward.
  - External collaborators (the wrapped coroutine, the tokenizer, the
    speech and completion services) are parameters of a Section.
  - A Python exception is a value of an error type; a function that may
    raise returns a sum. *)

From Stdlib Require Import QArith Qminmax Qpower Qround ZArith List String Ascii Lia Lqa Bool.
From stdpp Require Import gmap strings list fin_maps.

Local Open Scope Q_scope.

(** ** [src/utils/retry.py] *)

Module Retry.

Section AsyncRetry.

(** Values returned by the wrapped coroutine, and the exceptions it can
    raise besides [asyncio.TimeoutError]. *)
Variable V : Type.
Variable E : Type.

Inductive exn : Type :=
| TimeoutError
| Raised (e : E).

Inductive completion : Type :=
| Returns (v : V)
| Raises (x : exn).

(** One call of the wrapped coroutine [func]: the time it needs and how it
    ends when nobody cancels it, and whether it awaits while it works.
    A coroutine that awaits is suspended in the event loop, which can
    cancel it there, and is taken to be suspended for all the time it
    needs; a body without any [await] (a blocking download or
    conversion) runs to its end once it has started. *)
Record call : Type := { needs : Q; ends : completion; suspends : bool }.

(** What the wrapper does that the outside can see. *)
Inductive event : Type :=
| Call (attempt : nat)
| OnRetry (x : exn) (attempt : nat)
| Warning (x : exn) (attempt : nat)
| Error (x : exn)
| Sleep (d : Q).

(** How [wrapper] ends.  [ReturnedNone] is the fall-through of the
    function body (empty [range], no exception recorded). *)
Inductive outcome : Type :=
| Returned (v : V)
| ReturnedNone
| Propagated (x : exn)
| RetryError (cause : exn).

Record run : Type := { result : outcome; log : list (Q * event); finished : Q }.

Definition done (r : outcome) (t : Q) : run :=
  {| result := r; log := []; finished := t |}.

Definition logged (t : Q) (ev : event) (r : run) : run :=
  {| result := result r; log := (t, ev) :: log r; finished := finished r |}.

(** Parameters of the decorator. [exceptions e] is
    [isinstance(e, exceptions)]; [on_retry] tells whether a callback
    was supplied (a callback that returns normally: its call is an
    event of the run). *)
Variable func : nat -> call.
Variable max_retries : Z.
Variables delay backoff : Q.
Variable exceptions : E -> bool.
Variable timeout : option Q.
Variable on_retry : bool.

(** Awaiting [func], under [asyncio.wait_for] when [timeout] is given:
    what comes out and the time it takes.
    - [timeout <= 0]: the coroutine is cancelled before it starts and
      [asyncio.TimeoutError] is raised at once.
    - A coroutine that awaits and is not done when [timeout] has
      elapsed (the timer is served first when both fall together) is
      cancelled then, and [asyncio.TimeoutError] is raised; the wrapped
      coroutines let the cancellation through, so this takes no time.
    - A coroutine that never awaits cannot be interrupted: it runs to
      its end, however long, and its own result comes out. *)
Definition await_attempt (attempt : nat) : completion * Q :=
  let c := func attempt in
  match timeout with
  | Some t =>
      if Qle_bool t 0 then (Raises TimeoutError, 0)
      else if suspends c && Qle_bool t (needs c) then (Raises TimeoutError, t)
      else (ends c, needs c)
  | None => (ends c, needs c)
  end.

(** [asyncio.sleep(d)] lets no time pass for [d <= 0]. *)
Definition asleep (now d : Q) : Q := now + Qmax 0 d.

(** The body of [for attempt in range(max_retries + 1)], followed by
    the code after the loop. *)
Fixpoint attempts_loop (attempts : list nat) (last_exception : option exn)
    (current_delay now : Q) : run :=
  match attempts with
  | [] =>
      match last_exception with
      | Some x => done (RetryError x) now
      | None => done ReturnedNone now
      end
  | attempt :: rest =>
      let '(c, spent) := await_attempt attempt in
      let now' := now + spent in
      logged now (Call attempt)
        match c with
        | Returns v => done (Returned v) now'
        | Raises TimeoutError =>
            logged now' (Warning TimeoutError attempt)
              (attempts_loop rest (Some TimeoutError) current_delay now')
        | Raises (Raised e) =>
            if exceptions e then
              if (Z.of_nat attempt <? max_retries)%Z then
                (if on_retry then logged now' (OnRetry (Raised e) attempt)
                 else fun r => r)
                  (logged now' (Warning (Raised e) attempt)
                     (logged now' (Sleep current_delay)
                        (attempts_loop rest (Some (Raised e))
                           (current_delay * backoff)
                           (asleep now' current_delay))))
              else
                logged now' (Error (Raised e))
                  (done (RetryError (Raised e)) now')
            else done (Propagated (Raised e)) now'
        end
  end.

Definition wrapper (start : Q) : run :=
  attempts_loop (seq 0 (Z.to_nat (max_retries + 1))) None delay start.

(** *** Observations on a run *)

Definition events (r : run) : list event := map snd (log r).

Definition calls (evs : list event) : list nat :=
  flat_map (fun ev => match ev with Call k => [k] | _ => [] end) evs.

Definition sleeps (evs : list event) : list Q :=
  flat_map (fun ev => match ev with Sleep d => [d] | _ => [] end) evs.

Definition observer_calls (evs : list event) : list (exn * nat) :=
  flat_map (fun ev => match ev with OnRetry x k => [(x, k)] | _ => [] end) evs.

Definition Qsum (l : list Q) : Q := fold_right Qplus 0 l.

Definition slept (r : run) : Q := Qsum (sleeps (events r)).

(** The exception the wrapper sees at an attempt, if any. *)
Definition failure (attempt : nat) : option exn :=
  match fst (await_attempt attempt) with
  | Raises x => Some x
  | Returns _ => None
  end.

(** The attempt fails with an exception handled by the
    [except exceptions] clause. *)
Definition captured (attempt : nat) : bool :=
  match fst (await_attempt attempt) with
  | Raises (Raised e) => exceptions e
  | _ => false
  end.

(** What the observer is told about an attempt: something exactly when
    the attempt raised a captured exception and retries remain. *)
Definition retry_notice (attempt : nat) : list (exn * nat) :=
  match fst (await_attempt attempt) with
  | Raises (Raised e) =>
      if exceptions e && (Z.of_nat attempt <? max_retries)%Z
      then [(Raised e, attempt)] else []
  | _ => []
  end.

(** The delays of successive backoff sleeps, as [current_delay *= backoff]
    computes them. *)
Fixpoint backoff_delays (d : Q) (n : nat) : list Q :=
  match n with
  | O => []
  | S n' => d :: backoff_delays (d * backoff) n'
  end.

End AsyncRetry.

Arguments TimeoutError {E}.
Arguments Raised {E} e.
Arguments Returns {V E} v.
Arguments Raises {V E} x.
Arguments Call {E} attempt.
Arguments OnRetry {E} x attempt.
Arguments Warning {E} x attempt.
Arguments Error {E} x.
Arguments Sleep {E} d.
Arguments Returned {V E} v.
Arguments ReturnedNone {V E}.
Arguments Propagated {V E} x.
Arguments RetryError {V E} cause.
Arguments result {V E} r.
Arguments log {V E} r.
Arguments finished {V E} r.
Arguments events {V E} r.
Arguments calls {E} evs.
Arguments sleeps {E} evs.
Arguments observer_calls {E} evs.
Arguments slept {V E} r.
Arguments needs {V E} c.
Arguments ends {V E} c.
Arguments suspends {V E} c.

(** *** Sample operations

    [refused]: every call raises the same captured exception after two
    seconds.  [stuck]: every call would need 301 seconds of waiting to
    return.  [blocking]: every call runs for 301 seconds without an
    [await] and returns. *)

Definition refused (attempt : nat) : call unit string :=
  {| needs := 2; ends := Raises (Raised "API Error"%string); suspends := true |}.

Definition stuck (attempt : nat) : call unit string :=
  {| needs := 301; ends := Returns tt; suspends := true |}.

Definition blocking (attempt : nat) : call unit string :=
  {| needs := 301; ends := Returns tt; suspends := false |}.

Definition any_exception (e : string) : bool := true.

(** *** [TimeoutContext] *)

Record TimeoutContext : Type := { timeout : Q; start_time : Q }.

(** [TimeoutContext(timeout)], created when the clock shows [now]. *)
Definition new_context (t now : Q) : TimeoutContext :=
  {| timeout := t; start_time := now |}.

Definition remaining (self : TimeoutContext) (now : Q) : Q :=
  let elapsed := now - start_time self in
  Qmax 0 (timeout self - elapsed).

(** [check]: [None] when it returns, [Some tt] when it raises
    [asyncio.TimeoutError]. *)
Definition check (self : TimeoutContext) (now : Q) : option unit :=
  if Qle_bool (remaining self now) 0 then Some tt else None.

(** [sleep]: the clock after the sleep, or [inl tt] when it raises
    [asyncio.TimeoutError] without sleeping. *)
Definition sleep (self : TimeoutContext) (duration now : Q) : unit + Q :=
  if negb (Qle_bool duration (remaining self now)) then inl tt
  else inr (now + Qmax 0 duration).

End Retry.

(** ** [src/modules/analysis.py] *)

Module Analysis.

(** *** [Analyzer._chunk_transcript] *)

(** [transcript.split('. ')]: the pieces between the non-overlapping
    occurrences of the separator, found from left to right. *)
Fixpoint split (s : string) : list string :=
  match s with
  | EmptyString => [EmptyString]
  | String c s' =>
      match s' with
      | String c' rest =>
          if (Ascii.eqb c "." && Ascii.eqb c' " ")%bool then EmptyString :: split rest
          else match split s' with
               | piece :: more => String c piece :: more
               | [] => [String c EmptyString]
               end
      | EmptyString => [String c EmptyString]
      end
  end.

(** ['. '.join(l)] *)
Definition join (l : list string) : string := String.concat ". " l.

Section ChunkTranscript.

(** [self.encoding.encode], the tokenizer of the completion model. *)
Variable encode : string -> list Z.

Variable max_tokens : Z.

Record chunker : Type :=
  { chunks : list string; current_chunk : list string; current_tokens : Z }.

Definition start : chunker :=
  {| chunks := []; current_chunk := []; current_tokens := 0 |}.

(** [if current_chunk: chunks.append('. '.join(current_chunk) + '.')] *)
Definition close_chunk (st : chunker) : list string :=
  match current_chunk st with
  | [] => chunks st
  | _ :: _ => chunks st ++ [join (current_chunk st) +:+ "."]
  end.

(** One turn of [for sentence in sentences]. *)
Definition add_sentence (st : chunker) (sentence : string) : chunker :=
  let sentence_tokens := Z.of_nat (length (encode sentence)) in
  let st' :=
    if (current_tokens st + sentence_tokens >? max_tokens)%Z then
      match current_chunk st with
      | [] => st
      | _ :: _ =>
          {| chunks := close_chunk st; current_chunk := []; current_tokens := 0 |}
      end
    else st in
  {| chunks := chunks st';
     current_chunk := current_chunk st' ++ [sentence];
     current_tokens := (current_tokens st' + sentence_tokens)%Z |}.

(** The value returned by [_chunk_transcript]; the metrics it records on
    the way do not influence it. *)
Definition _chunk_transcript (transcript : string) : list string :=
  let sentences := split transcript in
  close_chunk (fold_left add_sentence sentences start).

End ChunkTranscript.

(** Characters of the pieces, counting a separator after each of them. *)
Definition weight (l : list string) : nat :=
  fold_right (fun x acc => (String.length x + 2 + acc)%nat) 0%nat l.

(** *** [Analyzer._combine_analyses] *)

(** The values [json.loads] produces. *)
#[warnings="-register-all"]
Inductive json : Type :=
| JNull
| JBool (b : bool)
| JNumber (q : Q)
| JString (s : string)
| JArray (items : list json)
| JObject (fields : list (string * json)).

Inductive error : Type :=
| IndexError
| KeyError (key : string)
| TypeError.

Definition bind {A B : Type} (m : error + A) (k : A -> error + B) : error + B :=
  match m with
  | inl e => inl e
  | inr a => k a
  end.

Notation "'let*' x ':=' m 'in' k" := (bind m (fun x => k))
  (at level 10, x name, m at level 100, k at level 200).

(** [d[key]] *)
Definition getitem (d : gmap string json) (key : string) : error + json :=
  match d !! key with
  | Some v => inr v
  | None => inl (KeyError key)
  end.

(** A byte [10xxxxxx], which continues a character in UTF-8. *)
Definition continuation (c : ascii) : bool :=
  let n := N_of_ascii c in ((128 <=? n) && (n <? 192))%N.

(** Whether a string starts in the middle of a character. *)
Definition continued (s : string) : bool :=
  match s with
  | String c _ => continuation c
  | EmptyString => false
  end.

(** The characters (code points) of a string, each as the string of its
    bytes: a byte belongs to the character of the byte before it exactly
    when it is a continuation byte. *)
Fixpoint code_points (s : string) : list string :=
  match s with
  | EmptyString => []
  | String c s' =>
      match code_points s' with
      | p :: ps =>
          if continued s' then String c p :: ps
          else String c EmptyString :: p :: ps
      | [] => [String c EmptyString]
      end
  end.

(** Iterating over a [str] yields its characters, each a [str] of
    length one. *)
Definition characters (s : string) : list json := map JString (code_points s).

(** What iterating over a value yields, as [list.extend] does. *)
Definition iterate (v : json) : error + list json :=
  match v with
  | JArray items => inr items
  | JString s => inr (characters s)
  | JObject fields => inr (map (fun kv => JString (fst kv)) fields)
  | JNull | JBool _ | JNumber _ => inl TypeError
  end.

Definition scalar_fields : list string :=
  ["identification"; "participants"; "structure"].

Definition list_fields : list string :=
  ["resume"; "echanges"; "citations"; "problematiques"; "positionnements";
   "signaux_faibles"; "annexes"].

(** [combined[field].extend(analysis[field])] *)
Definition extend_field (analysis : gmap string json)
    (combined : error + gmap string json) (field : string)
    : error + gmap string json :=
  let* c := combined in
  let* v := getitem analysis field in
  match c !! field with
  | Some (JArray collected) =>
      let* items := iterate v in
      inr (<[field := JArray (collected ++ items)]> c)
  | Some _ => inl TypeError
  | None => inl (KeyError field)
  end.

(** One turn of [for analysis in analyses]. *)
Definition extend_all (combined : error + gmap string json)
    (analysis : gmap string json) : error + gmap string json :=
  fold_left (extend_field analysis) list_fields combined.

(** The value returned by [_combine_analyses], or the exception it lets
    through (after recording it in the metrics). *)
Definition _combine_analyses (analyses : list (gmap string json))
    : error + gmap string json :=
  let* first := match analyses with
                 | [] => inl IndexError
                 | a :: _ => inr a
                 end in
  let* identification := getitem first "identification" in
  let* participants := getitem first "participants" in
  let* structure := getitem first "structure" in
  let combined : gmap string json :=
    list_to_map
      (("identification", identification) :: ("participants", participants)
       :: ("structure", structure)
       :: map (fun field => (field, JArray [])) list_fields) in
  fold_left extend_all analyses (inr combined).

(** The shared field schema: the three scalar fields are present and the
    seven list fields hold arrays. *)
Definition list_of (analysis : gmap string json) (field : string) : list json :=
  match analysis !! field with
  | Some (JArray items) => items
  | _ => []
  end.

Definition has_schema (analysis : gmap string json) : Prop :=
  (forall field, In field scalar_fields -> is_Some (analysis !! field)) /\
  (forall field, In field list_fields ->
     analysis !! field = Some (JArray (list_of analysis field))).

(** *** Sample chunk analyses *)

Definition chunk_analysis (title : string) (points : list string)
    : gmap string json :=
  list_to_map
    [("identification", JObject [("titre", JString title)]);
     ("participants", JArray [JString "rapporteur"]);
     ("structure", JString "questions");
     ("resume", JArray (map JString points));
     ("echanges", JArray []);
     ("citations", JArray []);
     ("problematiques", JArray []);
     ("positionnements", JArray []);
     ("signaux_faibles", JArray []);
     ("annexes", JArray [])].

End Analysis.

(** ** [src/modules/transcription.py] *)

Module Transcription.

(** The part of a speech-service response that [_combine_chunks] reads.
    A key that may be missing from a dictionary is an [option]. *)
Record alternative : Type := { transcript : option string }.
Record channel : Type := { alternatives : option (list alternative) }.
Record response : Type := { channels : option (list channel) }.
Record chunk : Type := { results : option response }.

Definition alternative_texts (alt : alternative) : list string :=
  match transcript alt with
  | Some text => [text]
  | None => []
  end.

Definition channel_texts (ch : channel) : list string :=
  match alternatives ch with
  | Some alts => flat_map alternative_texts alts
  | None => []
  end.

Definition chunk_texts (c : chunk) : list string :=
  match results c with
  | Some r =>
      match channels r with
      | Some chs => flat_map channel_texts chs
      | None => []
      end
  | None => []
  end.

(** [Transcriber._combine_chunks]: it returns a string for every list. *)
Definition _combine_chunks (chunks : list chunk) : string :=
  String.concat " " (flat_map chunk_texts chunks).

(** The end of [Transcriber.transcribe]: the chunk results that are not
    [None] are merged; without any, [transcribe] returns [None]. *)
Definition merge_valid_results (results : list (option chunk)) : option string :=
  let valid_results := omap id results in
  match valid_results with
  | [] => None
  | _ :: _ => Some (_combine_chunks valid_results)
  end.

(** A response with one channel and one alternative, as the speech
    service sends for one chunk of audio. *)
Definition spoken (text : string) : chunk :=
  {| results :=
       Some {| channels :=
                 Some [{| alternatives := Some [{| transcript := Some text |}] |}] |} |}.

(** What the claim of an [EmptyInput] failure asks of a merge. *)
Definition rejects_empty_input {A : Type} (merge : list chunk -> option A) : Prop :=
  merge [] = None.

End Transcription.

(** ** [src/utils/metrics.py] *)

Module Metrics.

Record QualityMetrics : Type :=
  { operation : string;
    start_time : Q;
    end_time : option Q;
    duration : option Q;
    success : bool;
    error : option string;
    retries : Z;
    input_size : option Z;
    output_size : option Z;
    api_calls : Z;
    api_tokens : Z;
    custom_metrics : gmap string Q }.

(** [QualityMetrics(operation=operation)], created at time [now]. *)
Definition start_operation (name : string) (now : Q) : QualityMetrics :=
  {| operation := name; start_time := now; end_time := None; duration := None;
     success := true; error := None; retries := 0; input_size := None;
     output_size := None; api_calls := 0; api_tokens := 0; custom_metrics := ∅ |}.

Definition complete (self : QualityMetrics) (now : Q) (ok : bool)
    (err : option string) : QualityMetrics :=
  {| operation := operation self; start_time := start_time self;
     end_time := Some now; duration := Some (now - start_time self);
     success := ok; error := err; retries := retries self;
     input_size := input_size self; output_size := output_size self;
     api_calls := api_calls self; api_tokens := api_tokens self;
     custom_metrics := custom_metrics self |}.

Definition add_api_call (self : QualityMetrics) (tokens : Z) : QualityMetrics :=
  {| operation := operation self; start_time := start_time self;
     end_time := end_time self; duration := duration self;
     success := success self; error := error self; retries := retries self;
     input_size := input_size self; output_size := output_size self;
     api_calls := api_calls self + 1; api_tokens := api_tokens self + tokens;
     custom_metrics := custom_metrics self |}.

Definition add_retry (self : QualityMetrics) : QualityMetrics :=
  {| operation := operation self; start_time := start_time self;
     end_time := end_time self; duration := duration self;
     success := success self; error := error self; retries := retries self + 1;
     input_size := input_size self; output_size := output_size self;
     api_calls := api_calls self; api_tokens := api_tokens self;
     custom_metrics := custom_metrics self |}.

(** [to_dict], which [to_json] writes out: the record without its start
    and end times. *)
Module Stored.
Record record : Type :=
  { operation : string;
    duration : option Q;
    success : bool;
    error : option string;
    retries : Z;
    input_size : option Z;
    output_size : option Z;
    api_calls : Z;
    api_tokens : Z;
    custom_metrics : gmap string Q }.
End Stored.

Definition to_dict (self : QualityMetrics) : Stored.record :=
  {| Stored.operation := operation self; Stored.duration := duration self;
     Stored.success := success self; Stored.error := error self;
     Stored.retries := retries self; Stored.input_size := input_size self;
     Stored.output_size := output_size self; Stored.api_calls := api_calls self;
     Stored.api_tokens := api_tokens self;
     Stored.custom_metrics := custom_metrics self |}.

(** The metrics directory: file name to content.  [None] is a file that
    [json.load] rejects. *)
Abbreviation directory := (gmap string (option Stored.record)).

(** The counters of [get_metrics_summary] while it reads the files. *)
Module Running.
Record counters : Type :=
  { total_operations : Z;
    successful_operations : Z;
    total_duration : Q;
    total_retries : Z;
    total_api_calls : Z;
    total_api_tokens : Z }.
End Running.

Record summary : Type :=
  { total_operations : Z;
    success_rate : Q;
    average_duration : Q;
    average_retries : Q;
    total_api_calls : Z;
    total_api_tokens : Z }.

(** File names: [glob("*.json")] keeps the names that end in [.json];
    [stem] is such a name without that suffix. *)
Fixpoint is_json (name : string) : bool :=
  match name with
  | EmptyString => false
  | String _ rest => String.eqb name ".json" || is_json rest
  end.

Fixpoint stem (name : string) : string :=
  match name with
  | EmptyString => EmptyString
  | String c rest =>
      if String.eqb rest ".json" then String c EmptyString
      else String c (stem rest)
  end.

Section Collector.

(** [time.strftime("%Y%m%d_%H%M%S")] when the clock shows the given whole
    number of seconds. *)
Variable strftime : Z -> string.

(** [not metrics.end_time] is false for a set, non-zero end time. *)
Definition finalized (metrics : QualityMetrics) (now : Q) : QualityMetrics :=
  match end_time metrics with
  | Some t => if Qeq_bool t 0 then complete metrics now true None else metrics
  | None => complete metrics now true None
  end.

Definition filename (metrics : QualityMetrics) (now : Q) : string :=
  operation metrics +:+ "_" +:+ strftime (Qfloor now) +:+ ".json".

(** [save_metrics], called at time [now]: opening the file for writing
    replaces whatever was stored under that name. *)
Definition save_metrics (metrics_dir : directory) (metrics : QualityMetrics)
    (now : Q) : directory :=
  <[filename metrics now := Some (to_dict (finalized metrics now))]> metrics_dir.

End Collector.

Definition glob_json (metrics_dir : directory)
    : list (string * option Stored.record) :=
  List.filter (fun file => is_json (fst file)) (map_to_list metrics_dir).

(** The files [get_metrics_summary] reads: all of them, or with a
    non-empty [operation] those whose stem starts with it. *)
Definition metrics_files (metrics_dir : directory) (filter_by : option string)
    : list (string * option Stored.record) :=
  match filter_by with
  | Some EmptyString | None => glob_json metrics_dir
  | Some name =>
      List.filter (fun file => String.prefix name (stem (fst file)))
        (glob_json metrics_dir)
  end.

Definition no_counts : Running.counters :=
  {| Running.total_operations := 0; Running.successful_operations := 0;
     Running.total_duration := 0; Running.total_retries := 0;
     Running.total_api_calls := 0; Running.total_api_tokens := 0 |}.

(** The body of [for file in metrics_files].  A file that does not parse
    is skipped.  A stored [null] duration raises at
    [total_duration += ...], after the two operation counters were
    incremented; the exception is logged and the loop goes on. *)
Definition read_file (acc : Running.counters)
    (file : string * option Stored.record) : Running.counters :=
  match snd file with
  | None => acc
  | Some metrics =>
      let counted :=
        {| Running.total_operations := Running.total_operations acc + 1;
           Running.successful_operations :=
             (if Stored.success metrics
              then Running.successful_operations acc + 1
              else Running.successful_operations acc);
           Running.total_duration := Running.total_duration acc;
           Running.total_retries := Running.total_retries acc;
           Running.total_api_calls := Running.total_api_calls acc;
           Running.total_api_tokens := Running.total_api_tokens acc |} in
      match Stored.duration metrics with
      | None => counted
      | Some d =>
          {| Running.total_operations := Running.total_operations counted;
             Running.successful_operations := Running.successful_operations counted;
             Running.total_duration := Running.total_duration acc + d;
             Running.total_retries := Running.total_retries acc + Stored.retries metrics;
             Running.total_api_calls :=
               Running.total_api_calls acc + Stored.api_calls metrics;
             Running.total_api_tokens :=
               Running.total_api_tokens acc + Stored.api_tokens metrics |}
      end
  end%Z.

Definition summarize (files : list (string * option Stored.record)) : summary :=
  let acc := fold_left read_file files no_counts in
  let n := Running.total_operations acc in
  {| total_operations := n;
     success_rate :=
       if (n >? 0)%Z then inject_Z (Running.successful_operations acc) / inject_Z n
       else 0;
     average_duration :=
       if (n >? 0)%Z then Running.total_duration acc / inject_Z n else 0;
     average_retries :=
       if (n >? 0)%Z then inject_Z (Running.total_retries acc) / inject_Z n else 0;
     total_api_calls := Running.total_api_calls acc;
     total_api_tokens := Running.total_api_tokens acc |}.

Definition get_metrics_summary (metrics_dir : directory)
    (filter_by : option string) : summary :=
  summarize (metrics_files metrics_dir filter_by).

(** What one file adds to the totals. *)
Definition readable (file : string * option Stored.record) : bool :=
  match snd file with
  | Some _ => true
  | None => false
  end.

Definition succeeded (file : string * option Stored.record) : bool :=
  match snd file with
  | Some metrics => Stored.success metrics
  | None => false
  end.

Definition counted (field : Stored.record -> Z)
    (file : string * option Stored.record) : Z :=
  match snd file with
  | Some metrics =>
      match Stored.duration metrics with
      | Some _ => field metrics
      | None => 0
      end
  | None => 0
  end.

Definition counted_duration (file : string * option Stored.record) : Q :=
  match snd file with
  | Some metrics =>
      match Stored.duration metrics with
      | Some d => d
      | None => 0
      end
  | None => 0
  end.

Definition Zsum (l : list Z) : Z := fold_right Z.add 0%Z l.

(** *** Sample records *)

Definition finished_record (name : string) (ok : bool) (calls tokens : Z)
    : option Stored.record :=
  Some {| Stored.operation := name; Stored.duration := Some 2;
          Stored.success := ok; Stored.error := None; Stored.retries := 0;
          Stored.input_size := None; Stored.output_size := None;
          Stored.api_calls := calls; Stored.api_tokens := tokens;
          Stored.custom_metrics := ∅ |}.

Definition sample_directory : directory :=
  list_to_map
    [("transcribe_20240101_120000.json", finished_record "transcribe" true 0 0);
     ("transcribe_chunk_20240101_115958.json",
      finished_record "transcribe_chunk" false 1 0);
     ("analyze_chunk_20240101_120007.json",
      finished_record "analyze_chunk" true 1 900)].

(** A clock for examples: second 0 is noon of 1 January 2024, and the
    format is right during the hour that follows. *)
Definition two_digits (n : Z) : string :=
  String (ascii_of_nat (48 + Z.to_nat (n / 10)))
    (String (ascii_of_nat (48 + Z.to_nat (n mod 10))) EmptyString).

Definition sample_strftime (seconds : Z) : string :=
  "20240101_12" +:+ two_digits (seconds / 60 mod 60) +:+ two_digits (seconds mod 60).

End Metrics.

(** ** [app.py] *)

Module App.

(** A call of a collaborator returns or raises an exception, of which
    only the message [str(e)] is used. *)
Inductive call (A : Type) : Type :=
| Return (a : A)
| Raise (message : string).

Arguments Return {A} a.
Arguments Raise {A} message.

(** [asyncio.gather]: the tasks complete in some order; each completion
    stores its result under the position of its task, and once all are
    done the results are read out by position.  A task is given here by
    the result it completes with. *)
Definition complete_task {A : Type} (tasks : list A) (buffer : gmap nat A)
    (i : nat) : gmap nat A :=
  match tasks !! i with
  | Some r => <[i := r]> buffer
  | None => buffer
  end.

Definition gather {A : Type} (tasks : list A) (completion_order : list nat)
    : list A :=
  let buffer := fold_left (complete_task tasks) completion_order ∅ in
  omap (fun i => buffer !! i) (seq 0 (length tasks)).

Section Pipeline.

(** File paths. *)
Variable path : Type.

(** An individual analysis and a consolidated analysis are JSON objects. *)
Abbreviation analysis := (gmap string Analysis.json).
Abbreviation consolidated := (gmap string Analysis.json).

(** The collaborators: [audio_extractor.extract_audio], [transcriber.transcribe],
    [analyzer.analyze_individual], [audio_extractor.cleanup] and
    [analyzer.analyze_consolidated]. *)
Variable extract_audio : string -> call (option path * option string).
Variable transcribe : option path -> call (option string).
Variable analyze_individual : string -> string -> call (option analysis).
Variable cleanup : option path -> call unit.
Variable analyze_consolidated : list analysis -> string -> call (option consolidated).

(** The dictionary [process_url] returns: [{"error": ...}] or
    [{"transcript": ..., "analysis": ...}]. *)
Inductive item_result : Type :=
| Failed (error : string)
| Completed (transcript : string) (result : analysis).

(** [process_url]; every exception is caught and becomes an error
    result.  The metrics it saves do not influence what it returns. *)
Definition process_url (theme url : string) : item_result :=
  match extract_audio url with
  | Raise message => Failed message
  | Return (audio_path, None) | Return (audio_path, Some EmptyString) =>
      match transcribe audio_path with
      | Raise message => Failed message
      | Return None | Return (Some EmptyString) => Failed "Échec de la transcription"
      | Return (Some transcript) =>
          match analyze_individual transcript theme with
          | Raise message => Failed message
          | Return None => Failed "Échec de l'analyse"
          | Return (Some result) =>
              if decide (result = ∅) then Failed "Échec de l'analyse"
              else match cleanup audio_path with
                   | Raise message => Failed message
                   | Return _ => Completed transcript result
                   end
          end
      end
  | Return (_, Some error) => Failed error
  end.

Definition errors_of (results : list item_result) : list string :=
  flat_map (fun r => match r with Failed error => [error] | _ => [] end) results.

Definition analyses_of (results : list item_result) : list analysis :=
  flat_map (fun r => match r with Completed _ a => [a] | _ => [] end) results.

(** What [generate_consolidated_analysis] returns, with the calls of
    [analyzer.analyze_consolidated] it has made. *)
Record consolidation : Type :=
  { returned : option consolidated;
    consolidation_calls : list (list analysis * string) }.

Definition generate_consolidated_analysis (urls : list string) (theme : string)
    (completion_order : list nat) : consolidation :=
  let tasks := map (process_url theme) urls in
  let results := gather tasks completion_order in
  match errors_of results with
  | _ :: _ => {| returned := None; consolidation_calls := [] |}
  | [] =>
      let analyses := analyses_of results in
      {| returned :=
           match analyze_consolidated analyses theme with
           | Return value => value
           | Raise _ => None
           end;
         consolidation_calls := [(analyses, theme)] |}
  end.

(** [st.session_state], as far as the processing touches it. *)
Record session_state : Type :=
  { results : list item_result;
    consolidated_analysis : option consolidated }.

(** The step of [main] after the individual results were collected:
    [if len(valid_urls) > 1: ...]. *)
Definition consolidate_if_multiple (valid_urls : list string) (theme : string)
    (completion_order : list nat) (state : session_state)
    : session_state * list (list analysis * string) :=
  if (1 <? length valid_urls)%nat then
    let outcome := generate_consolidated_analysis valid_urls theme completion_order in
    (match returned outcome with
     | Some value =>
         if decide (value = ∅) then state
         else {| results := results state; consolidated_analysis := Some value |}
     | None => state
     end,
     consolidation_calls outcome)
  else (state, []).

Definition is_completed (r : item_result) : bool :=
  match r with
  | Completed _ _ => true
  | Failed _ => false
  end.

End Pipeline.

(** *** Sample collaborators: every link works but one. *)

Definition sample_extract (url : string) : call (option string * option string) :=
  if String.eqb url "https://youtu.be/broken"
  then Return (None, Some "URL YouTube invalide")
  else Return (Some (url +:+ ".wav"), None).

Definition sample_transcribe (audio_path : option string) : call (option string) :=
  Return (Some "Bonjour. Merci.").

Definition sample_analyze (transcript theme : string)
    : call (option (gmap string Analysis.json)) :=
  Return (Some (Analysis.chunk_analysis theme [transcript])).

Definition sample_cleanup (audio_path : option string) : call unit := Return tt.

Definition sample_consolidate (analyses : list (gmap string Analysis.json))
    (theme : string) : call (option (gmap string Analysis.json)) :=
  Return (Some {[ "theme" := Analysis.JString theme ]}).

Definition sample_process_url : string -> string -> item_result :=
  process_url string sample_extract sample_transcribe sample_analyze sample_cleanup.

Definition five_links : list string :=
  ["https://youtu.be/a"; "https://youtu.be/b"; "https://youtu.be/c";
   "https://youtu.be/broken"; "https://youtu.be/e"].

End App.

(** ** [app.py]: the links processed side by side

    [generate_consolidated_analysis] creates one [process_url] coroutine
    per link and awaits [asyncio.gather] on them.  The event loop runs
    one coroutine at a time, from one [await] of a collaborator to the
    next, and which coroutine it runs next depends on when the awaited
    work is over: any order is possible.  A collaborator is a function
    of its arguments, as in [App]. *)

Module FanOut.

Import App.

Section Tasks.

Variable path : Type.
Variable extract_audio : string -> call (option path * option string).
Variable transcribe : option path -> call (option string).
Variable analyze_individual : string -> string -> call (option (gmap string Analysis.json)).
Variable cleanup : option path -> call unit.
Variable theme : string.

(** A [process_url] coroutine between two turns: the [await] it has
    reached, with the local variables it holds there, or the way it
    ended. *)
Inductive coroutine : Type :=
| AwaitExtract (url : string)
| AwaitTranscribe (audio_path : option path)
| AwaitAnalyze (audio_path : option path) (transcript : string)
| AwaitCleanup (audio_path : option path) (transcript : string)
    (result : gmap string Analysis.json)
| Ended (outcome : call item_result).

(** One turn: the awaited call is over and the body of [process_url]
    goes on to its next [await], to a [return], or into its
    [except Exception] clause, which returns an error result. *)
Definition resume (c : coroutine) : coroutine :=
  match c with
  | AwaitExtract url =>
      match extract_audio url with
      | Raise message => Ended (Return (Failed message))
      | Return (audio_path, None) | Return (audio_path, Some EmptyString) =>
          AwaitTranscribe audio_path
      | Return (_, Some error) => Ended (Return (Failed error))
      end
  | AwaitTranscribe audio_path =>
      match transcribe audio_path with
      | Raise message => Ended (Return (Failed message))
      | Return None | Return (Some EmptyString) =>
          Ended (Return (Failed "Échec de la transcription"))
      | Return (Some transcript) => AwaitAnalyze audio_path transcript
      end
  | AwaitAnalyze audio_path transcript =>
      match analyze_individual transcript theme with
      | Raise message => Ended (Return (Failed message))
      | Return None => Ended (Return (Failed "Échec de l'analyse"))
      | Return (Some result) =>
          if decide (result = ∅) then Ended (Return (Failed "Échec de l'analyse"))
          else AwaitCleanup audio_path transcript result
      end
  | AwaitCleanup audio_path transcript result =>
      match cleanup audio_path with
      | Raise message => Ended (Return (Failed message))
      | Return _ => Ended (Return (Completed transcript result))
      end
  | Ended outcome => Ended outcome
  end.

Definition ended (c : coroutine) : bool :=
  match c with
  | Ended _ => true
  | _ => false
  end.

(** The turns a coroutine takes until it has ended, when no more than
    [fuel] are needed. *)
Fixpoint turns_from (fuel : nat) (c : coroutine) : nat :=
  match fuel with
  | O => 0
  | S fuel' => if ended c then 0 else S (turns_from fuel' (resume c))
  end.

(** The awaits a coroutine has before it at most. *)
Definition awaits_ahead (c : coroutine) : nat :=
  match c with
  | AwaitExtract _ => 4
  | AwaitTranscribe _ => 3
  | AwaitAnalyze _ _ => 2
  | AwaitCleanup _ _ _ => 1
  | Ended _ => 0
  end.

Definition turns_left (c : coroutine) : nat := turns_from 4 c.

(** The turns the coroutine of a link takes when it runs alone. *)
Definition turns (url : string) : nat := turns_left (AwaitExtract url).

(** The tasks the event loop can run: those that have not ended. *)
Definition unfinished (pool : list coroutine) : list nat :=
  List.filter
    (fun i => match pool !! i with
              | Some c => negb (ended c)
              | None => false
              end)
    (seq 0 (length pool)).

Definition raised (c : option coroutine) : bool :=
  match c with
  | Some (Ended (Raise _)) => true
  | _ => false
  end.

(** The event loop while [asyncio.gather] is awaited.  [pick] stands
    for the order in which awaited work gets done: it chooses the task
    to run next among the unfinished ones.  The loop is over when every
    task has ended, or when a task has raised, which [gather] passes on
    at once.  It gives the tasks in the order of their turns and the
    tasks as they are at the end. *)
Fixpoint event_loop (pick : list coroutine -> nat) (fuel : nat)
    (pool : list coroutine) : list nat * list coroutine :=
  match fuel with
  | O => ([], pool)
  | S fuel' =>
      match unfinished pool with
      | [] => ([], pool)
      | ready =>
          let i := nth (pick pool mod length ready) ready 0%nat in
          let pool' := alter resume i pool in
          if raised (pool' !! i) then ([i], pool')
          else let '(trace, final) := event_loop pick fuel' pool' in
               (i :: trace, final)
      end
  end.

(** What awaiting [gather] gives: the exception of a task that raised,
    else the results of the tasks by position; nothing as long as a task
    has not ended. *)
Fixpoint results_of (pool : list coroutine) : option (call (list item_result)) :=
  match pool with
  | [] => Some (Return [])
  | Ended (Raise message) :: _ => Some (Raise message)
  | Ended (Return r) :: rest =>
      match results_of rest with
      | Some (Return rs) => Some (Return (r :: rs))
      | other => other
      end
  | _ :: rest =>
      match results_of rest with
      | Some (Raise message) => Some (Raise message)
      | _ => None
      end
  end.

(** [tasks = [process_url(url, theme) for url in urls]], and
    [asyncio.gather] awaited on them: four turns per task are enough. *)
Definition gather_links (pick : list coroutine -> nat) (urls : list string)
    : list nat * list coroutine :=
  event_loop pick (4 * length urls) (map AwaitExtract urls).

(** The order in which the tasks ended: a task ends at its last turn. *)
Definition completion_order (trace : list nat) : list nat :=
  nodup Nat.eq_dec trace.

End Tasks.

Arguments Ended {path} outcome.
Arguments AwaitExtract {path} url.

(** A sample order of events, which changes from turn to turn. *)
Definition sample_order {path : Type} (pool : list (coroutine path)) : nat :=
  list_sum (map (awaits_ahead path) pool).

End FanOut.

(** ** [src/modules/analysis.py]: the analysis of one transcript *)

Module AnalysisFlow.

Import Analysis.

Section Analyzer.

Variable encode : string -> list Z.

(** Tokens of the sentences of a chunk, as [current_tokens] adds them up. *)
Definition group_tokens (sentences : list string) : Z :=
  fold_right (fun sentence acc => (Z.of_nat (length (encode sentence)) + acc)%Z)
    0%Z sentences.

(** [self._analyze_chunk], with its retry wrapper: the parsed reply of
    the completion service for a chunk and a theme, or the exception
    that comes out. *)
Variable _analyze_chunk : string -> string -> App.call (gmap string json).

(** [for chunk in chunks: chunk_results.append(await self._analyze_chunk(chunk, theme))] *)
Fixpoint analyze_chunks (theme : string) (chunks : list string)
    : App.call (list (gmap string json)) :=
  match chunks with
  | [] => App.Return []
  | chunk :: rest =>
      match _analyze_chunk chunk theme with
      | App.Raise message => App.Raise message
      | App.Return result =>
          match analyze_chunks theme rest with
          | App.Raise message => App.Raise message
          | App.Return results => App.Return (result :: results)
          end
      end
  end.

(** [Analyzer.analyze_individual]: every exception becomes [None]. *)
Definition analyze_individual (transcript theme : string)
    : option (gmap string json) :=
  let chunks := _chunk_transcript encode 4000 transcript in
  match analyze_chunks theme chunks with
  | App.Raise _ => None
  | App.Return chunk_results =>
      match _combine_analyses chunk_results with
      | inr combined_result => Some combined_result
      | inl _ => None
      end
  end.

Variable max_tokens : Z.

(** What holds of the chunker after it has read [seen]: the closed
    chunks render groups of whole sentences, the groups and the open
    chunk are the sentences read so far, and the open chunk is either one
    sentence or within the budget. *)
Definition chunker_invariant (st : chunker) (seen : list string) : Prop :=
  exists groups,
    chunks st = map (fun g => join g +:+ ".") groups /\
    concat groups ++ current_chunk st = seen /\
    Forall (fun g => g <> []) groups /\
    Forall (fun g => length g = 1%nat
                     \/ (group_tokens g <= max_tokens)%Z) groups /\
    current_tokens st = group_tokens (current_chunk st) /\
    (length (current_chunk st) <= 1
     \/ (group_tokens (current_chunk st) <= max_tokens)%Z)%nat.

End Analyzer.

(** What a list field of an analysis adds to the merge: the items that
    iterating over its value yields. *)
Definition items_of (analysis : gmap string json) (field : string) : list json :=
  match analysis !! field with
  | Some v => match iterate v with
              | inr items => items
              | inl _ => []
              end
  | None => []
  end.

Definition iterable (analysis : gmap string json) (field : string) : Prop :=
  exists v items, analysis !! field = Some v /\ iterate v = inr items.

(** A tokenizer for examples: one token per character. *)
Definition letters (s : string) : list Z := repeat 0%Z (String.length s).



End AnalysisFlow.

(** ** [src/modules/transcription.py]: the time windows of [transcribe] *)

Module Windows.

(** A duration as Python holds it. *)
Inductive number : Type :=
| PyInt (z : Z)
| PyFloat (q : Q).

(** [range(0, stop, step)] for a positive [step]. *)
Definition range_from_zero (stop step : Z) : list Z :=
  map (fun k => (Z.of_nat k * step)%Z) (seq 0 (Z.to_nat ((stop + step - 1) / step))).

Definition chunk_size : Z := 600.

(** [[(i, min(i + chunk_size, duration)) for i in range(0, duration, chunk_size)]];
    [range] raises [TypeError] when [duration] is a float. *)
Definition chunk_windows (duration : number) : Analysis.error + list (Z * Z) :=
  match duration with
  | PyFloat _ => inl Analysis.TypeError
  | PyInt d =>
      inr (map (fun i => (i, Z.min (i + chunk_size) d)) (range_from_zero d chunk_size))
  end.

End Windows.

(** ** Further sample inputs *)

Module Scenarios.

(** An operation that waits too long at its first call, raises at its
    second and returns from then on. *)
Definition unsteady (attempt : nat) : Retry.call string string :=
  match attempt with
  | 0%nat => {| Retry.needs := 301; Retry.ends := Retry.Returns "transcript";
                Retry.suspends := true |}
  | 1%nat => {| Retry.needs := 1; Retry.ends := Retry.Raises (Retry.Raised "API Error");
                Retry.suspends := true |}
  | _ => {| Retry.needs := 1; Retry.ends := Retry.Returns "transcript";
            Retry.suspends := true |}
  end.

End Scenarios.

(** * Theorems *)

(** ** Strings *)

Lemma string_app_cons c (x y : string) : String c x +:+ y = String c (x +:+ y).
Proof. reflexivity. Qed.

Lemma string_length_app (a b : string) :
  String.length (a +:+ b) = (String.length a + String.length b)%nat.
Proof.
  induction a as [ | c a IH]; [reflexivity | ].
  change (S (String.length (a +:+ b)) = S (String.length a + String.length b)).
  rewrite IH. reflexivity.
Qed.

Lemma string_app_assoc (a b c : string) : (a +:+ b) +:+ c = a +:+ (b +:+ c).
Proof.
  induction a as [ | x a IH]; [reflexivity | ].
  change (String x ((a +:+ b) +:+ c) = String x (a +:+ (b +:+ c))).
  rewrite IH. reflexivity.
Qed.

Lemma concat_app sep (l1 l2 : list string) :
  l1 <> [] -> l2 <> [] ->
  String.concat sep (l1 ++ l2)
  = String.concat sep l1 +:+ sep +:+ String.concat sep l2.
Proof.
  intros H1 H2. induction l1 as [ | x [ | y l1] IH]; [congruence | | ].
  - destruct l2 as [ | z l2]; [congruence | reflexivity].
  - change (x +:+ sep +:+ String.concat sep ((y :: l1) ++ l2)
            = (x +:+ sep +:+ String.concat sep (y :: l1))
              +:+ sep +:+ String.concat sep l2).
    rewrite IH by discriminate. rewrite !string_app_assoc. reflexivity.
Qed.

(** ** Retry loop *)

Section RetryFacts.

Import Retry.

Context {V E : Type}.
Variable func : nat -> call V E.
Variable max_retries : Z.
Variables delay backoff : Q.
Variable exceptions : E -> bool.
Variable timeout : option Q.

Lemma events_logged t ev (r : run V E) :
  events (logged V E t ev r) = ev :: events r.
Proof. reflexivity. Qed.

Lemma events_done o t : events (done V E o t) = [].
Proof. reflexivity. Qed.

Lemma result_logged t ev (r : run V E) : result (logged V E t ev r) = result r.
Proof. reflexivity. Qed.

Lemma finished_logged t ev (r : run V E) :
  finished (logged V E t ev r) = finished r.
Proof. reflexivity. Qed.

Ltac step_attempt :=
  cbn [attempts_loop];
  match goal with
  | |- context [await_attempt _ _ _ _ ?k] =>
      destruct (await_attempt V E func timeout k) as [[v | [ | e]] spent] eqn:Hawait
  end;
  cbn [fst];
  repeat match goal with
    | |- context [exceptions ?e] => destruct (exceptions e) eqn:?
    | |- context [(Z.of_nat ?k <? max_retries)%Z] =>
        destruct (Z.of_nat k <? max_retries)%Z eqn:?
    end;
  rewrite ?events_logged, ?events_done, ?result_logged, ?finished_logged.

Lemma calls_cons (ev : event E) evs :
  calls (ev :: evs) = match ev with Call k => [k] | _ => [] end ++ calls evs.
Proof. reflexivity. Qed.

Lemma sleeps_cons (ev : event E) evs :
  sleeps (ev :: evs) = match ev with Sleep d => [d] | _ => [] end ++ sleeps evs.
Proof. reflexivity. Qed.

Lemma observer_calls_cons (ev : event E) evs :
  observer_calls (ev :: evs)
  = match ev with OnRetry x k => [(x, k)] | _ => [] end ++ observer_calls evs.
Proof. reflexivity. Qed.

Ltac project_events :=
  rewrite ?calls_cons, ?sleeps_cons, ?observer_calls_cons; cbn [app flat_map].

(** The observer hears of exactly the retried attempts, in order. *)
Lemma observer_calls_loop attempts last d now :
  let r := attempts_loop V E func max_retries backoff exceptions timeout true
             attempts last d now in
  observer_calls (events r)
  = flat_map (retry_notice V E func max_retries exceptions timeout) (calls (events r)).
Proof.
  revert last d now.
  induction attempts as [ | k rest IH]; intros last d now.
  - cbn. destruct last; reflexivity.
  - cbn zeta in *. step_attempt; project_events.
    all: unfold retry_notice at 1; rewrite ?Hawait; cbn [fst].
    all: rewrite ?Heqb, ?Heqb0; cbn [andb app]; rewrite <- ?IH; reflexivity.
Qed.

(** Every call of the observer stands right after the attempt it reports
    and right before the warning and the backoff sleep of that attempt. *)
Lemma observer_before_sleep attempts last d now pre x k post :
  events (attempts_loop V E func max_retries backoff exceptions timeout true
            attempts last d now) = pre ++ OnRetry x k :: post ->
  (exists pre', pre = pre' ++ [Call k]) /\
  (exists d' post', post = Warning x k :: Sleep d' :: post').
Proof.
  revert last d now pre.
  induction attempts as [ | k0 rest IH]; intros last d now pre H.
  - destruct last; destruct pre; discriminate H.
  - revert H. step_attempt; intros H.
    + destruct pre as [ | ? [ | ? ?]]; discriminate H.
    + destruct pre as [ | ? [ | ? pre]]; try discriminate H.
      injection H as <- <- H. apply IH in H as [[pre' ->] Hpost].
      split; [ | exact Hpost]. exists (Call k0 :: Warning TimeoutError k0 :: pre').
      reflexivity.
    + destruct pre as [ | ? [ | ? [ | ? [ | ? pre]]]]; try discriminate H.
      * injection H as <- <- <- <-. split; [exists []; reflexivity | eauto].
      * injection H as <- <- <- <- H. apply IH in H as [[pre' ->] Hpost].
        split; [ | exact Hpost].
        exists (Call k0 :: OnRetry (Raised e) k0 :: Warning (Raised e) k0
                  :: Sleep d :: pre').
        reflexivity.
    + destruct pre as [ | ? [ | ? [ | ? ?]]]; discriminate H.
    + destruct pre as [ | ? [ | ? ?]]; discriminate H.
Qed.

(** A run whose attempts all fail with a captured exception: every
    attempt of the range is made, the sleeps are the backoff delays and
    the last exception is the cause of the [RetryError]. *)
Lemma all_captured_loop on_retry m : forall k last d now,
  (Z.of_nat (k + m) = max_retries)%Z ->
  (forall j, (k <= j <= k + m)%nat ->
     captured V E func exceptions timeout j = true) ->
  let r := attempts_loop V E func max_retries backoff exceptions timeout on_retry
             (seq k (S m)) last d now in
  calls (events r) = seq k (S m) /\
  sleeps (events r) = backoff_delays backoff d m /\
  exists x, failure V E func timeout (k + m) = Some x /\ result r = RetryError x.
Proof.
  induction m as [ | m IH]; intros k last d now Hk Hall r; subst r.
  - pose proof (Hall k ltac:(lia)) as Hc. unfold captured in Hc.
    rewrite Nat.add_0_r in *. unfold failure.
    cbn [seq]. step_attempt; cbn [fst] in Hc; try congruence; try lia.
    project_events. cbn. eauto.
  - pose proof (Hall k ltac:(lia)) as Hc. unfold captured in Hc.
    change (seq k (S (S m))) with (k :: seq (S k) (S m)).
    step_attempt; cbn [fst] in Hc; try congruence; try lia.
    destruct (IH (S k) (Some (Raised e)) (d * backoff) (asleep (now + spent) d))
      as (Hcalls & Hsleeps & x & Hx & Hres).
    { lia. }
    { intros j Hj. apply Hall. lia. }
    replace (k + S m)%nat with (S k + m)%nat by lia.
    destruct on_retry; rewrite ?events_logged, ?result_logged; project_events;
      rewrite Hcalls, Hsleeps; cbn [backoff_delays]; eauto.
Qed.

Lemma Qsum_cons x l : Qsum (x :: l) = x + Qsum l.
Proof. reflexivity. Qed.

Lemma Qpower_succ_nat (b : Q) (n : nat) :
  b ^ Z.of_nat (S n) == b * b ^ Z.of_nat n.
Proof.
  replace (Z.of_nat (S n)) with (1 + Z.of_nat n)%Z by lia.
  rewrite Qpower_plus' by lia. reflexivity.
Qed.

(** Sum of the backoff delays, without dividing by [backoff - 1]. *)
Lemma backoff_delays_sum n : forall d,
  Qsum (backoff_delays backoff d n) * (backoff - 1)
  == d * (backoff ^ Z.of_nat n - 1).
Proof.
  induction n as [ | n IH]; intros d.
  - change (0 * (backoff - 1) == d * (1 - 1)). ring.
  - cbn [backoff_delays]. rewrite Qsum_cons, Qmult_plus_distr_l, IH.
    rewrite Qpower_succ_nat. ring.
Qed.

(** C1 (amended): when every attempt raises a captured exception (one
    handled by the [except exceptions] clause, not a timeout) and
    [max_retries >= 0], the wrapper makes exactly [max_retries + 1]
    attempts, raises [RetryError] from the exception of the last
    attempt, and has slept [delay * backoff^k] after attempt [k] for
    each [k < max_retries]: in total
    [delay * (backoff^max_retries - 1) / (backoff - 1)]. *)
Theorem retry_exhausted_after_backoff on_retry start :
  (0 <= max_retries)%Z ->
  (forall k, (Z.of_nat k <= max_retries)%Z ->
     captured V E func exceptions timeout k = true) ->
  let r := wrapper V E func max_retries delay backoff exceptions timeout
             on_retry start in
  calls (events r) = seq 0 (Z.to_nat (max_retries + 1)) /\
  Z.of_nat (length (calls (events r))) = (max_retries + 1)%Z /\
  (exists x, failure V E func timeout (Z.to_nat max_retries) = Some x /\
             result r = RetryError x) /\
  sleeps (events r) = backoff_delays backoff delay (Z.to_nat max_retries) /\
  slept r * (backoff - 1) == delay * (backoff ^ max_retries - 1) /\
  (~ backoff == 1 ->
   slept r == delay * (backoff ^ max_retries - 1) / (backoff - 1) /\
   delay * (backoff ^ max_retries - 1) / (backoff - 1) <= slept r).
Proof.
  intros Hpos Hall r. subst r. unfold wrapper, slept.
  replace (Z.to_nat (max_retries + 1)) with (S (Z.to_nat max_retries)) by lia.
  destruct (all_captured_loop on_retry (Z.to_nat max_retries) 0 None delay start)
    as (Hcalls & Hsleeps & Hres).
  { lia. }
  { intros j Hj. apply Hall. lia. }
  cbn zeta in *. rewrite Hcalls, Hsleeps.
  assert (Hsum : Qsum (backoff_delays backoff delay (Z.to_nat max_retries))
                 * (backoff - 1) == delay * (backoff ^ max_retries - 1)).
  { rewrite backoff_delays_sum, Z2Nat.id by lia. reflexivity. }
  repeat split; try assumption.
  - rewrite length_seq. lia.
  - rewrite <- Hsum. field. intros H0. apply H. lra.
  - rewrite <- Hsum. apply Qle_lteq. right. field. intros H0. apply H. lra.
Qed.

(** The attempts made are an initial segment of the range: no attempt
    index is tried twice. *)
Lemma calls_prefix on_retry attempts : forall last d now,
  exists rest,
    attempts = calls (events (attempts_loop V E func max_retries backoff
                                exceptions timeout on_retry attempts last d now))
               ++ rest.
Proof.
  induction attempts as [ | k tl IH]; intros last d now.
  - exists []. destruct last; reflexivity.
  - step_attempt.
    + exists tl. reflexivity.
    + destruct (IH (Some TimeoutError) d (now + spent)) as [rest Hrest].
      exists rest. project_events. congruence.
    + destruct (IH (Some (Raised e)) (d * backoff) (asleep (now + spent) d))
        as [rest Hrest].
      exists rest. destruct on_retry; rewrite ?events_logged; project_events;
        congruence.
    + exists tl. reflexivity.
    + exists tl. reflexivity.
Qed.

(** C3 (amended): with an observer supplied, the observer is called
    exactly once for every attempt that raised a captured exception while
    retries remained (attempt index below [max_retries]), with that
    exception and index, and for no other attempt; in particular not for
    the failed attempt that exhausts the retries.  Each call stands right
    after its attempt and right before the warning and the backoff sleep
    that follow that attempt. *)
Theorem observer_once_per_retried_attempt start :
  let r := wrapper V E func max_retries delay backoff exceptions timeout
             true start in
  observer_calls (events r)
  = flat_map (retry_notice V E func max_retries exceptions timeout)
      (calls (events r)) /\
  (exists rest, seq 0 (Z.to_nat (max_retries + 1)) = calls (events r) ++ rest) /\
  (forall k, (max_retries <= Z.of_nat k)%Z ->
     retry_notice V E func max_retries exceptions timeout k = []) /\
  (forall pre x k post, events r = pre ++ OnRetry x k :: post ->
     (exists pre', pre = pre' ++ [Call k]) /\
     (exists d post', post = Warning x k :: Sleep d :: post')).
Proof.
  cbn zeta. unfold wrapper. repeat split.
  - apply observer_calls_loop.
  - apply calls_prefix.
  - intros k Hk. unfold retry_notice.
    destruct (fst (await_attempt V E func timeout k)) as [v | [ | e]];
      try reflexivity.
    replace (Z.of_nat k <? max_retries)%Z with false by (symmetry; lia).
    rewrite andb_false_r. reflexivity.
  - eapply observer_before_sleep; eassumption.
  - eapply observer_before_sleep; eassumption.
Qed.

(** *** The timeout of [async_retry] is per attempt *)

Lemma await_cancelled t k :
  timeout = Some t -> 0 < t ->
  suspends (func k) = true -> t <= needs (func k) ->
  await_attempt V E func timeout k = (Raises TimeoutError, t).
Proof.
  intros Ht Hpos Hyields Hlong. unfold await_attempt. rewrite Ht, Hyields.
  destruct (Qle_bool t 0) eqn:Hle0.
  - apply Qle_bool_iff in Hle0. lra.
  - destruct (Qle_bool t (needs (func k))) eqn:Hle; [reflexivity | ].
    apply Qle_bool_iff in Hlong. congruence.
Qed.

(** Under a timeout that cannot be negative, an attempt that awaits
    never takes longer than the timeout. *)
Lemma await_within t k :
  timeout = Some t -> 0 <= t -> suspends (func k) = true ->
  snd (await_attempt V E func timeout k) <= t.
Proof.
  intros Ht Hpos Hyields. unfold await_attempt. rewrite Ht, Hyields.
  destruct (Qle_bool t 0) eqn:Hle0; cbn [snd]; [exact Hpos | ].
  destruct (Qle_bool t (needs (func k))) eqn:Hle; cbn [andb snd].
  - apply Qle_refl.
  - apply Qlt_le_weak, Qnot_le_lt. intros H. apply Qle_bool_iff in H. congruence.
Qed.

(** No timeout interrupts an attempt that never awaits. *)
Lemma await_blocking t k :
  timeout = Some t -> 0 < t -> suspends (func k) = false ->
  await_attempt V E func timeout k = (ends (func k), needs (func k)).
Proof.
  intros Ht Hpos Hblocks. unfold await_attempt. rewrite Ht, Hblocks.
  destruct (Qle_bool t 0) eqn:Hle0; [ | reflexivity].
  apply Qle_bool_iff in Hle0. lra.
Qed.

Lemma inject_Z_succ_nat n :
  inject_Z (Z.of_nat (S n)) == inject_Z (Z.of_nat n) + 1.
Proof. rewrite Nat2Z.inj_succ. unfold Z.succ. rewrite inject_Z_plus. reflexivity. Qed.

(** A run whose attempts are all still waiting when the timeout has
    elapsed: no sleep, every attempt of the range is tried and each one
    costs the whole timeout. *)
Lemma all_cancelled_loop on_retry t m : forall k last d now,
  timeout = Some t -> 0 < t ->
  (forall j, (k <= j < k + m)%nat ->
     suspends (func j) = true /\ t <= needs (func j)) ->
  (m <> 0%nat \/ last = Some TimeoutError) ->
  let r := attempts_loop V E func max_retries backoff exceptions timeout on_retry
             (seq k m) last d now in
  calls (events r) = seq k m /\
  sleeps (events r) = [] /\
  result r = RetryError TimeoutError /\
  finished r == now + inject_Z (Z.of_nat m) * t.
Proof.
  induction m as [ | m IH]; intros k last d now Ht Hpos Hall Hlast r; subst r.
  - destruct Hlast as [Hm | ->]; [congruence | ].
    cbn. repeat split. ring.
  - cbn [seq attempts_loop].
    destruct (Hall k ltac:(lia)) as [Hyields Hlong].
    rewrite (await_cancelled t k Ht Hpos Hyields Hlong).
    rewrite !events_logged, !result_logged, !finished_logged. project_events.
    destruct (IH (S k) (Some TimeoutError) d (now + t) Ht Hpos)
      as (Hcalls & Hsleeps & Hres & Hfin).
    { intros j Hj. apply Hall. lia. }
    { right. reflexivity. }
    rewrite Hcalls, Hsleeps, Hres, Hfin, inject_Z_succ_nat.
    repeat split. ring.
Qed.

(** Whatever attempts that await do, each one is given the whole
    timeout again: the run may last as long as the number of attempts
    times the timeout, plus the sleeps. *)
Lemma finished_within_attempt_budgets on_retry t attempts : forall last d now,
  timeout = Some t -> 0 <= t ->
  (forall k, In k attempts -> suspends (func k) = true) ->
  let r := attempts_loop V E func max_retries backoff exceptions timeout on_retry
             attempts last d now in
  finished r <= now + inject_Z (Z.of_nat (length (calls (events r)))) * t
                + Qsum (map (Qmax 0) (sleeps (events r))).
Proof.
  induction attempts as [ | k tl IH]; intros last d now Ht Hpos Hyield r; subst r.
  - destruct last; change (now <= now + 0 * t + 0); lra.
  - pose proof (await_within t k Ht Hpos (Hyield k (or_introl eq_refl))) as Hspent.
    assert (Hrest : forall j, In j tl -> suspends (func j) = true)
      by (intros j Hj; apply Hyield; right; exact Hj).
    step_attempt; cbn [snd] in Hspent.
    + change (now + spent <= now + 1 * t + 0). lra.
    + project_events. cbn [length]. rewrite inject_Z_succ_nat.
      specialize (IH (Some TimeoutError) d (now + spent) Ht Hpos Hrest).
      cbn zeta in IH. lra.
    + specialize (IH (Some (Raised e)) (d * backoff) (asleep (now + spent) d)
                    Ht Hpos Hrest).
      cbn zeta in IH.
      assert (Hwake : asleep (now + spent) d == now + spent + Qmax 0 d)
        by reflexivity.
      set (wake := asleep (now + spent) d) in *.
      destruct on_retry; rewrite ?events_logged, ?finished_logged;
        project_events; cbn [length map]; rewrite Qsum_cons, inject_Z_succ_nat;
        lra.
    + change (now + spent <= now + 1 * t + 0). lra.
    + change (now + spent <= now + 1 * t + 0). lra.
Qed.

(** *** [TimeoutContext] keeps the only cumulative deadline *)

Lemma remaining_spec (self : TimeoutContext) now :
  (start_time self + Retry.timeout self <= now /\ remaining self now == 0) \/
  (now < start_time self + Retry.timeout self /\
   remaining self now == start_time self + Retry.timeout self - now).
Proof.
  unfold remaining.
  destruct (Q.max_spec 0 (Retry.timeout self - (now - start_time self)))
    as [[Hlt Hmax] | [Hle Hmax]]; rewrite Hmax.
  - right. split; lra.
  - left. split; lra.
Qed.

Lemma check_raises_iff (self : TimeoutContext) now :
  check self now = Some tt <-> start_time self + Retry.timeout self <= now.
Proof.
  unfold check. destruct (Qle_bool (remaining self now) 0) eqn:Hle.
  - apply Qle_bool_iff in Hle.
    destruct (remaining_spec self now) as [[H1 H2] | [H1 H2]]; split; auto; lra.
  - assert (Hgt : ~ remaining self now <= 0).
    { intros H. apply Qle_bool_iff in H. congruence. }
    destruct (remaining_spec self now) as [[H1 H2] | [H1 H2]];
      split; try discriminate; lra.
Qed.

Lemma sleep_raises_iff (self : TimeoutContext) d now :
  sleep self d now = inl tt <-> remaining self now < d.
Proof.
  unfold sleep. destruct (Qle_bool d (remaining self now)) eqn:Hle; cbn [negb].
  - apply Qle_bool_iff in Hle. split; [discriminate | lra].
  - split; [intros _ | reflexivity]. apply Qnot_le_lt. intros H.
    apply Qle_bool_iff in H. congruence.
Qed.

Lemma sleep_returns (self : TimeoutContext) d now t' :
  sleep self d now = inr t' ->
  d <= remaining self now /\ t' == now + Qmax 0 d /\
  t' <= Qmax now (start_time self + Retry.timeout self).
Proof.
  unfold sleep. destruct (Qle_bool d (remaining self now)) eqn:Hle; cbn [negb];
    [ | discriminate].
  intros [= <-]. apply Qle_bool_iff in Hle.
  split; [exact Hle | split; [reflexivity | ]].
  destruct (Q.max_spec 0 d) as [[H1 H2] | [H1 H2]]; rewrite H2;
    destruct (Q.max_spec now (start_time self + Retry.timeout self))
      as [[H3 H4] | [H3 H4]]; rewrite H4;
    destruct (remaining_spec self now) as [[H5 H6] | [H5 H6]]; lra.
Qed.

(** C2: the only time limit of [async_retry], its [timeout] (documented
    as the global timeout), does not bound the time of the attempts
    together.  It is granted anew to every attempt: when every attempt is
    still waiting once [timeout] has elapsed, the wrapper starts all
    [max_retries + 1] attempts, never sleeps, lasts
    [(max_retries + 1) * timeout], which is past [timeout] as soon as
    one retry is allowed, and ends in [RetryError] caused by the
    timeout, not in a deadline failure.  The cumulative deadline the
    claim describes is kept by [TimeoutContext], which the loop does not
    use: [check] raises exactly when [timeout] has elapsed since its
    creation, and [sleep(duration)] raises at once, without sleeping,
    exactly when [duration] exceeds the remaining time. *)
Theorem timeout_bounds_each_attempt on_retry start t :
  timeout = Some t -> 0 < t -> (0 <= max_retries)%Z ->
  (forall k, suspends (func k) = true /\ t <= needs (func k)) ->
  let r := wrapper V E func max_retries delay backoff exceptions timeout
             on_retry start in
  calls (events r) = seq 0 (Z.to_nat (max_retries + 1)) /\
  sleeps (events r) = [] /\
  result r = RetryError TimeoutError /\
  finished r == start + inject_Z (max_retries + 1) * t /\
  ((1 <= max_retries)%Z -> start + t < finished r) /\
  (forall self now,
     check self now = Some tt <-> start_time self + Retry.timeout self <= now) /\
  (forall self d now, sleep self d now = inl tt <-> remaining self now < d) /\
  (forall self d now t', sleep self d now = inr t' ->
     d <= remaining self now /\ t' == now + Qmax 0 d /\
     t' <= Qmax now (start_time self + Retry.timeout self)).
Proof.
  intros Ht Hpos Hretries Hlong r. subst r. unfold wrapper.
  destruct (all_cancelled_loop on_retry t (Z.to_nat (max_retries + 1)) 0 None
              delay start Ht Hpos) as (Hcalls & Hsleeps & Hres & Hfin).
  { intros j _. apply Hlong. }
  { left. lia. }
  rewrite Z2Nat.id in Hfin by lia.
  repeat match goal with |- _ /\ _ => split end;
    try assumption;
    [ | exact check_raises_iff | exact sleep_raises_iff | exact sleep_returns].
  intros Hone. rewrite Hfin, inject_Z_plus.
  assert (Hq : 1 <= inject_Z max_retries).
  { change 1 with (inject_Z 1). rewrite <- Zle_Qle. exact Hone. }
  change (inject_Z 1) with 1. nra.
Qed.

End RetryFacts.

Lemma retry_exhausted_after_backoff_witness :
  (0 <= 3)%Z /\
  (forall k, (Z.of_nat k <= 3)%Z ->
     Retry.captured unit string Retry.refused Retry.any_exception (Some 300) k
     = true) /\
  Retry.slept (Retry.wrapper unit string Retry.refused 3 1 2 Retry.any_exception
                 (Some 300) true 0) * (2 - 1) == 1 * (2 ^ 3 - 1).
Proof.
  split; [lia | split; [intros k _; reflexivity | ]].
  destruct (retry_exhausted_after_backoff Retry.refused 3 1 2
              Retry.any_exception (Some 300) true 0)
    as (_ & _ & _ & _ & H & _); [lia | intros k _; reflexivity | exact H].
Defined.

(** C1 fails for timeouts: with [max_retries=3, delay=1, backoff=2,
    timeout=300] every attempt of [stuck] is cancelled after 300 seconds
    and retried; the wrapper raises [RetryError] after 4 attempts without
    having slept at all, while the claimed bound is 7 seconds. *)
Lemma retry_timeouts_never_sleep :
  let r := Retry.wrapper unit string Retry.stuck 3 1 2 Retry.any_exception
             (Some 300) true 0 in
  (forall k, Retry.failure unit string Retry.stuck (Some 300) k
             = Some Retry.TimeoutError) /\
  Retry.calls (Retry.events r) = [0; 1; 2; 3]%nat /\
  Retry.result r = Retry.RetryError Retry.TimeoutError /\
  Retry.slept r = 0 /\
  ~ (1 * (2 ^ 3 - 1) / (2 - 1) <= Retry.slept r).
Proof.
  cbn zeta. repeat split.
  vm_compute. intros H. apply H. reflexivity.
Qed.

Lemma observer_once_per_retried_attempt_witness :
  let r := Retry.wrapper unit string Retry.refused 1 1 2 Retry.any_exception
             (Some 300) true 0 in
  Retry.events r
  = [Retry.Call 0%nat] ++ Retry.OnRetry (Retry.Raised "API Error"%string) 0
      :: [Retry.Warning (Retry.Raised "API Error"%string) 0; Retry.Sleep 1;
          Retry.Call 1%nat; Retry.Error (Retry.Raised "API Error"%string)] /\
  Retry.observer_calls (Retry.events r)
  = flat_map (Retry.retry_notice unit string Retry.refused 1 Retry.any_exception
                (Some 300))
      (Retry.calls (Retry.events r)).
Proof.
  split; [reflexivity | ].
  apply (observer_once_per_retried_attempt Retry.refused 1 1 2
           Retry.any_exception (Some 300) 0).
Defined.

(** C3 fails at the final failed attempt: with [max_retries=3] and an
    operation that raises on every call, four attempts fail but the
    observer is called three times; attempt 3 is not reported. *)
Lemma observer_skips_final_failure :
  let r := Retry.wrapper unit string Retry.refused 3 1 2 Retry.any_exception
             (Some 300) true 0 in
  Retry.calls (Retry.events r) = [0; 1; 2; 3]%nat /\
  (forall k, Retry.failure unit string Retry.refused (Some 300) k
             = Some (Retry.Raised "API Error"%string)) /\
  Retry.observer_calls (Retry.events r)
  = [(Retry.Raised "API Error"%string, 0%nat);
     (Retry.Raised "API Error"%string, 1%nat);
     (Retry.Raised "API Error"%string, 2%nat)] /\
  ~ (forall k, In k (Retry.calls (Retry.events r)) ->
       exists x, In (x, k) (Retry.observer_calls (Retry.events r))).
Proof.
  cbn zeta. repeat split.
  intros H. destruct (H 3%nat) as [x Hx].
  - vm_compute. tauto.
  - vm_compute in Hx. repeat destruct Hx as [Hx | Hx]; try discriminate Hx.
    exact Hx.
Qed.

(** With [max_retries=3, delay=1, backoff=2, timeout=300], the settings
    of [download_video], and an operation that would wait 301 seconds:
    the timeout is spent by the first attempt, yet attempt 1 starts at
    second 300, attempts 2 and 3 after it, and the run ends at second
    1200 with [RetryError]. *)
Lemma timeout_bounds_each_attempt_witness :
  let r := Retry.wrapper unit string Retry.stuck 3 1 2 Retry.any_exception
             (Some 300) true 0 in
  (Some 300 = Some 300 /\ 0 < 300 /\ (0 <= 3)%Z /\
   forall k, Retry.suspends (Retry.stuck k) = true
             /\ 300 <= Retry.needs (Retry.stuck k)) /\
  In (0 + 300, Retry.Call 1%nat) (Retry.log r) /\
  Retry.calls (Retry.events r) = [0; 1; 2; 3]%nat /\
  Retry.result r = Retry.RetryError Retry.TimeoutError /\
  Retry.finished r == 0 + inject_Z (3 + 1) * 300 /\
  0 + 300 < Retry.finished r.
Proof.
  assert (Hlong : forall k : nat, Retry.suspends (Retry.stuck k) = true
                                  /\ 300 <= Retry.needs (Retry.stuck k)).
  { intros k. split; [reflexivity | vm_compute; discriminate]. }
  destruct (timeout_bounds_each_attempt Retry.stuck 3 1 2 Retry.any_exception
              (Some 300) true 0 300 eq_refl ltac:(reflexivity) ltac:(lia) Hlong)
    as (Hcalls & _ & Hres & Hfin & Hpast & _).
  cbn zeta.
  split; [split; [reflexivity | split; [reflexivity | split; [lia | exact Hlong]]] | ].
  split; [vm_compute; tauto | ].
  split; [exact Hcalls | ].
  split; [exact Hres | ].
  split; [exact Hfin | ].
  apply Hpast. lia.
Defined.

(** ** Chunking of transcripts *)

Section ChunkFacts.

Import Analysis.

Variable encode : string -> list Z.
Variable max_tokens : Z.

Lemma split_step c c' rest :
  split (String c (String c' rest))
  = if (Ascii.eqb c "." && Ascii.eqb c' " ")%bool then EmptyString :: split rest
    else match split (String c' rest) with
         | piece :: more => String c piece :: more
         | [] => [String c EmptyString]
         end.
Proof. reflexivity. Qed.

Lemma split_cons (s : string) : exists piece more, split s = piece :: more.
Proof.
  destruct s as [ | c [ | c' rest]]; [cbn; eauto | cbn; eauto | ].
  rewrite split_step.
  destruct (Ascii.eqb c "." && Ascii.eqb c' " ")%bool; [eauto | ].
  destruct (split (String c' rest)); eauto.
Qed.

Lemma concat_cons_char sep c piece more :
  String.concat sep (String c piece :: more)
  = String c (String.concat sep (piece :: more)).
Proof. destruct more; reflexivity. Qed.

(** Splitting loses nothing: the sentences joined again are the
    transcript. *)
Lemma join_split (s : string) : join (split s) = s.
Proof.
  unfold join.
  remember (String.length s) as n eqn:Hn.
  revert s Hn. induction n as [n IH] using lt_wf_ind. intros s Hn.
  destruct s as [ | c [ | c' rest]]; [reflexivity | reflexivity | ].
  rewrite split_step.
  destruct (Ascii.eqb c "." && Ascii.eqb c' " ")%bool eqn:Hsep.
  - apply andb_true_iff in Hsep as [Hc Hc'].
    apply Ascii.eqb_eq in Hc, Hc'. subst c c'.
    destruct (split_cons rest) as (piece & more & Hrest).
    specialize (IH (String.length rest) ltac:(subst n; cbn; lia) rest eq_refl).
    rewrite Hrest in *.
    change (String.concat ". " (EmptyString :: piece :: more))
      with (". " +:+ String.concat ". " (piece :: more)).
    rewrite IH. reflexivity.
  - destruct (split_cons (String c' rest)) as (piece & more & Hrest).
    specialize (IH (String.length (String c' rest)) ltac:(subst n; cbn; lia)
                  (String c' rest) eq_refl).
    rewrite Hrest in *. rewrite concat_cons_char, IH. reflexivity.
Qed.

Lemma weight_cons x l : weight (x :: l) = (String.length x + 2 + weight l)%nat.
Proof. reflexivity. Qed.

Lemma weight_app l1 l2 : weight (l1 ++ l2) = (weight l1 + weight l2)%nat.
Proof.
  induction l1 as [ | x l1 IH]; [reflexivity | ].
  rewrite <- app_comm_cons, !weight_cons, IH. lia.
Qed.

Lemma join_length x l :
  (String.length (join (x :: l)) + 2 = weight (x :: l))%nat.
Proof.
  unfold join. revert x. induction l as [ | y l IH]; intros x.
  - cbn. lia.
  - change (String.concat ". " (x :: y :: l))
      with (x +:+ ". " +:+ String.concat ". " (y :: l)).
    rewrite !string_length_app. specialize (IH y).
    change (weight (x :: y :: l)) with (String.length x + 2 + weight (y :: l))%nat.
    cbn [String.length]. lia.
Qed.

Lemma close_chunk_weight (st : chunker) :
  (weight (close_chunk st) + length (chunks st)
   = weight (chunks st) + weight (current_chunk st) + length (close_chunk st))%nat.
Proof.
  unfold close_chunk. destruct (current_chunk st) as [ | x l] eqn:Hcur.
  - cbn. lia.
  - rewrite weight_app, length_app. cbn [weight fold_right length].
    rewrite string_length_app. pose proof (join_length x l) as Hj.
    cbn [weight fold_right] in Hj. cbn [String.length]. lia.
Qed.

Lemma add_sentence_weight (st : chunker) sentence :
  let st' := add_sentence encode max_tokens st sentence in
  (weight (chunks st') + weight (current_chunk st') + length (chunks st)
   = weight (chunks st) + weight (current_chunk st) + weight [sentence]
     + length (chunks st'))%nat /\
  current_chunk st' <> [].
Proof.
  cbn zeta. unfold add_sentence.
  destruct (current_tokens st + Z.of_nat (length (encode sentence)) >? max_tokens)%Z;
    [destruct (current_chunk st) as [ | x l] eqn:Hcur | ];
    cbn [chunks current_chunk]; rewrite ?Hcur, ?weight_app.
  - split; [cbn; lia | discriminate].
  - pose proof (close_chunk_weight st) as Hclose. rewrite Hcur in Hclose.
    split; [cbn [app weight fold_right] in *; lia | discriminate].
  - split; [lia | intros H; apply app_eq_nil in H as [_ H]; discriminate].
Qed.

Lemma fold_add_sentence_weight sentences : forall st,
  let st' := fold_left (add_sentence encode max_tokens) sentences st in
  (weight (chunks st') + weight (current_chunk st') + length (chunks st)
   = weight (chunks st) + weight (current_chunk st) + weight sentences
     + length (chunks st'))%nat /\
  (sentences <> [] -> current_chunk st' <> []).
Proof.
  induction sentences as [ | x l IH]; intros st.
  - cbn. split; [lia | congruence].
  - cbn [fold_left]. cbn zeta in *.
    destruct (add_sentence_weight st x) as [Hstep Hcur].
    destruct (IH (add_sentence encode max_tokens st x)) as [Hrest Hcur'].
    split.
    + change (x :: l) with ([x] ++ l). rewrite weight_app. lia.
    + intros _. destruct l as [ | y l]; [exact Hcur | apply Hcur'; discriminate].
Qed.

(** C4: the chunks joined with the sentence separator are never the
    transcript: every chunk ends with a period that the transcript does
    not have at that place, so the rejoined text is longer than the
    transcript by the number of chunks, and there is always a chunk. *)
Theorem rejoined_chunks_gain_periods (transcript : string) :
  let chunks := _chunk_transcript encode max_tokens transcript in
  String.length (join chunks) = (String.length transcript + length chunks)%nat /\
  chunks <> [] /\
  join chunks <> transcript.
Proof.
  cbn zeta. unfold _chunk_transcript.
  destruct (split_cons transcript) as (piece & more & Hsplit).
  pose proof (join_split transcript) as Hjoin.
  pose proof (join_length piece more) as Hlen.
  rewrite Hsplit in *. rewrite Hjoin in Hlen.
  destruct (fold_add_sentence_weight (piece :: more) (start)) as [Hw Hcur].
  cbn zeta in *. specialize (Hcur ltac:(discriminate)).
  set (st := fold_left (add_sentence encode max_tokens) (piece :: more) start) in *.
  pose proof (close_chunk_weight st) as Hclose.
  assert (Hne : close_chunk st <> []).
  { unfold close_chunk. destruct (current_chunk st); [congruence | ].
    intros H. apply app_eq_nil in H as [_ H]. discriminate. }
  destruct (close_chunk st) as [ | c cs] eqn:Hfinal; [congruence | ].
  pose proof (join_length c cs) as Hlen'.
  change (chunks start) with (@nil string) in Hw.
  change (current_chunk start) with (@nil string) in Hw.
  change (weight []) with 0%nat in Hw.
  change (length (@nil string)) with 0%nat in Hw.
  assert (Hsize : String.length (join (c :: cs))
                  = (String.length transcript + length (c :: cs))%nat).
  { lia. }
  repeat split; [exact Hsize | discriminate | ].
  intros Heq. rewrite Heq in Hsize. cbn [length] in Hsize. lia.
Qed.

(** The transcript of the unit test: one chunk, with a doubled period. *)
Lemma short_transcript_chunk :
  _chunk_transcript encode max_tokens "This is a short transcript."
  = ["This is a short transcript.."].
Proof.
  unfold _chunk_transcript. cbn [split]. cbn.
  unfold add_sentence, close_chunk. cbn [current_chunk chunks start].
  destruct (_ >? _)%Z; reflexivity.
Qed.

End ChunkFacts.

(** ** Merging of chunk analyses *)

Section CombineFacts.

Import Analysis.

Implicit Types (analysis c : gmap string json) (field : string).

Lemma list_of_lookup c field items :
  c !! field = Some (JArray items) -> list_of c field = items.
Proof. intros H. unfold list_of. rewrite H. reflexivity. Qed.

Lemma extend_field_array analysis c field :
  analysis !! field = Some (JArray (list_of analysis field)) ->
  c !! field = Some (JArray (list_of c field)) ->
  extend_field analysis (inr c) field
  = inr (<[field := JArray (list_of c field ++ list_of analysis field)]> c).
Proof.
  intros Ha Hc. unfold extend_field, getitem. cbn [bind].
  rewrite Ha. cbn [bind]. rewrite Hc. reflexivity.
Qed.

(** Extending the fields of a duplicate-free list appends, field by
    field, what the analysis holds and touches no other key. *)
Lemma extend_fields_spec analysis fields : forall c,
  List.NoDup fields ->
  (forall f, In f fields -> analysis !! f = Some (JArray (list_of analysis f))) ->
  (forall f, In f fields -> c !! f = Some (JArray (list_of c f))) ->
  exists c',
    fold_left (extend_field analysis) fields (inr c) = inr c' /\
    (forall f, In f fields ->
       c' !! f = Some (JArray (list_of c f ++ list_of analysis f))) /\
    (forall k, ~ In k fields -> c' !! k = c !! k).
Proof.
  induction fields as [ | f fs IH]; intros c Hnodup Ha Hc.
  - exists c. cbn. intuition.
  - apply List.NoDup_cons_iff in Hnodup as [Hfresh Hnodup].
    cbn [fold_left].
    rewrite extend_field_array by (first [apply Ha | apply Hc]; left; reflexivity).
    set (c1 := <[f := JArray (list_of c f ++ list_of analysis f)]> c).
    assert (Hother : forall g, g <> f -> c1 !! g = c !! g).
    { intros g Hg. unfold c1. apply lookup_insert_ne. congruence. }
    destruct (IH c1 Hnodup) as (c' & Hfold & Hin & Hout).
    { intros g Hg. apply Ha. right. exact Hg. }
    { intros g Hg. assert (g <> f) by (intros ->; contradiction).
      unfold list_of at 1. rewrite !Hother by assumption.
      fold (list_of c g). apply Hc. right. exact Hg. }
    exists c'. split; [exact Hfold | split].
    + intros g [<- | Hg].
      * rewrite Hout by exact Hfresh. unfold c1. apply lookup_insert_eq.
      * assert (g <> f) by (intros ->; contradiction).
        rewrite Hin by exact Hg. unfold list_of at 1. rewrite Hother by assumption.
        reflexivity.
    + intros k Hk. rewrite Hout by (intros H; apply Hk; right; exact H).
      apply Hother. intros ->. apply Hk. left. reflexivity.
Qed.

Lemma list_fields_nodup : List.NoDup list_fields.
Proof.
  unfold list_fields.
  repeat (apply List.NoDup_cons; [cbn; intuition discriminate | ]).
  apply List.NoDup_nil.
Qed.

(** The loop over the analyses appends their list fields in order, each
    analysis after those before it. *)
Lemma extend_analyses_spec analyses : forall c,
  Forall has_schema analyses ->
  (forall f, In f list_fields -> c !! f = Some (JArray (list_of c f))) ->
  exists c',
    fold_left extend_all analyses (inr c) = inr c' /\
    (forall f, In f list_fields ->
       c' !! f = Some (JArray (list_of c f
                               ++ concat (map (fun a => list_of a f) analyses)))) /\
    (forall k, ~ In k list_fields -> c' !! k = c !! k).
Proof.
  induction analyses as [ | a rest IH]; intros c Hschema Hc.
  - exists c. cbn [fold_left map concat]. split; [reflexivity | split].
    + intros f Hf. rewrite app_nil_r. apply Hc. exact Hf.
    + reflexivity.
  - apply Forall_cons_iff in Hschema as [[_ Ha] Hrest].
    cbn [fold_left]. unfold extend_all at 2.
    destruct (extend_fields_spec a list_fields c list_fields_nodup Ha Hc)
      as (c1 & -> & Hin & Hout).
    destruct (IH c1 Hrest) as (c' & Hfold & Hin' & Hout').
    { intros f Hf. rewrite (Hin f Hf). f_equal. f_equal. symmetry.
      apply list_of_lookup. apply Hin. exact Hf. }
    exists c'. split; [exact Hfold | split].
    + intros f Hf. rewrite (Hin' f Hf).
      rewrite (list_of_lookup c1 f _ (Hin f Hf)).
      cbn [map concat]. rewrite <- app_assoc. reflexivity.
    + intros k Hk. rewrite Hout', Hout by exact Hk. reflexivity.
Qed.

(** C7: for a non-empty sequence of chunk analyses that have the schema,
    [_combine_analyses] returns a record whose scalar fields
    ([identification], [participants], [structure]) are those of the
    first chunk and whose every list field is the concatenation of that
    field over the chunks, in chunk order and keeping the order inside
    each chunk. *)
Theorem combine_keeps_first_scalars_and_chunk_order first rest :
  Forall has_schema (first :: rest) ->
  exists combined,
    _combine_analyses (first :: rest) = inr combined /\
    (forall f, In f scalar_fields -> combined !! f = first !! f) /\
    (forall f, In f list_fields ->
       combined !! f
       = Some (JArray (concat (map (fun a => list_of a f) (first :: rest))))).
Proof.
  intros Hschema. pose proof Hschema as Hfirst.
  apply Forall_cons_iff in Hfirst as [[Hscalar _] _].
  unfold _combine_analyses. cbn [bind]. unfold getitem.
  destruct (Hscalar "identification") as [identification Hi]; [cbn; tauto | ].
  destruct (Hscalar "participants") as [participants Hp]; [cbn; tauto | ].
  destruct (Hscalar "structure") as [structure Hs]; [cbn; tauto | ].
  rewrite Hi, Hp, Hs. cbn [bind].
  match goal with |- context [fold_left extend_all _ (inr ?m)] => set (c := m) end.
  destruct (extend_analyses_spec (first :: rest) c Hschema)
    as (combined & Hfold & Hin & Hout).
  { intros f Hf. cbn in Hf.
    repeat (destruct Hf as [<- | Hf]; [reflexivity | ]). contradiction. }
  exists combined. split; [exact Hfold | split].
  - intros f Hf. rewrite Hout.
    + cbn in Hf. destruct Hf as [<- | [<- | [<- | []]]]; symmetry; assumption.
    + cbn in Hf. destruct Hf as [<- | [<- | [<- | []]]]; cbn; intuition discriminate.
  - intros f Hf. rewrite (Hin f Hf). f_equal. f_equal.
    cbn in Hf. repeat (destruct Hf as [<- | Hf]; [reflexivity | ]). contradiction.
Qed.

End CombineFacts.

Lemma combine_keeps_first_scalars_and_chunk_order_witness :
  let c1 := Analysis.chunk_analysis "Audition 1" ["p1"; "p2"] in
  let c2 := Analysis.chunk_analysis "Audition 2" ["p3"] in
  Forall Analysis.has_schema [c1; c2] /\
  exists merged,
    Analysis._combine_analyses [c1; c2] = inr merged /\
    merged !! "identification" = c1 !! "identification" /\
    merged !! "resume"
    = Some (Analysis.JArray (Analysis.list_of c1 "resume"
                             ++ Analysis.list_of c2 "resume")).
Proof.
  intros c1 c2.
  assert (Hschema : Forall Analysis.has_schema [c1; c2]).
  { repeat constructor; intros f Hf; cbn in Hf;
      repeat (destruct Hf as [<- | Hf]; [vm_compute; eauto | ]);
      contradiction. }
  split; [exact Hschema | ].
  destruct (combine_keeps_first_scalars_and_chunk_order c1 [c2] Hschema)
    as (merged & Hmerged & Hscalar & Hlist).
  exists merged. split; [exact Hmerged | split].
  - apply Hscalar. cbn. tauto.
  - rewrite (Hlist "resume") by (cbn; tauto). cbn [map concat].
    rewrite app_nil_r. reflexivity.
Defined.

(** ** Merging of chunk transcripts *)

Section CombineChunksFacts.

Import Transcription.

Lemma spoken_texts texts : flat_map chunk_texts (map spoken texts) = texts.
Proof.
  induction texts as [ | t texts IH]; [reflexivity | ].
  cbn [map flat_map]. rewrite IH. reflexivity.
Qed.

(** C8 (amended): the text merge joins the transcripts of the chunks in
    index order with a single space between them, and for zero chunks it
    returns the empty string; it has no failure.  It is [transcribe]
    that returns [None] instead of merging when no chunk result is
    left. *)
Theorem text_merge_joins_in_order :
  (forall texts, _combine_chunks (map spoken texts) = String.concat " " texts) /\
  (forall before after,
     flat_map chunk_texts before <> [] -> flat_map chunk_texts after <> [] ->
     _combine_chunks (before ++ after)
     = _combine_chunks before +:+ " " +:+ _combine_chunks after) /\
  _combine_chunks [] = "" /\
  (forall outcomes : list (option chunk),
     merge_valid_results outcomes = None <-> omap id outcomes = []) /\
  (forall (outcomes : list (option chunk)) merged,
     merge_valid_results outcomes = Some merged ->
     merged = _combine_chunks (omap id outcomes)).
Proof.
  repeat split.
  - intros texts. unfold _combine_chunks. rewrite spoken_texts. reflexivity.
  - intros before after Hb Ha. unfold _combine_chunks.
    rewrite flat_map_app. apply concat_app; assumption.
  - unfold merge_valid_results. destruct (omap id outcomes); [reflexivity | discriminate].
  - unfold merge_valid_results. intros ->. reflexivity.
  - unfold merge_valid_results. intros outcomes merged.
    destruct (omap id outcomes); [discriminate | ]. intros [= <-]. reflexivity.
Qed.

End CombineChunksFacts.

(** C8 fails for zero chunks: the merge returns the empty string, it
    does not fail. *)
Lemma text_merge_of_no_chunk_returns :
  Transcription._combine_chunks [] = "" /\
  ~ Transcription.rejects_empty_input
      (fun chunks => Some (Transcription._combine_chunks chunks)).
Proof. split; [reflexivity | discriminate]. Qed.

(** ** Metrics files *)

Section MetricsFacts.

Import Metrics.

Variable strftime : Z -> string.

(** C9: two records of the same operation saved within the same
    wall-clock second get the same file name, and the second save
    replaces the first record: one file is left, not two. *)
Theorem same_second_saves_share_one_file (metrics_dir : directory)
    (m1 m2 : QualityMetrics) (t1 t2 : Q) :
  operation m1 = operation m2 -> Qfloor t1 = Qfloor t2 ->
  filename strftime m1 t1 = filename strftime m2 t2 /\
  save_metrics strftime (save_metrics strftime metrics_dir m1 t1) m2 t2
  = save_metrics strftime metrics_dir m2 t2 /\
  (size (save_metrics strftime (save_metrics strftime metrics_dir m1 t1) m2 t2)
   <= S (size metrics_dir))%nat.
Proof.
  intros Hop Hsec.
  assert (Hname : filename strftime m1 t1 = filename strftime m2 t2).
  { unfold filename. rewrite Hop, Hsec. reflexivity. }
  assert (Hsave : save_metrics strftime (save_metrics strftime metrics_dir m1 t1) m2 t2
                  = save_metrics strftime metrics_dir m2 t2).
  { unfold save_metrics. rewrite Hname. apply insert_insert_eq. }
  split; [exact Hname | split; [exact Hsave | ]].
  rewrite Hsave. unfold save_metrics. rewrite map_size_insert.
  destruct (metrics_dir !! _); unfold id; lia.
Qed.

End MetricsFacts.

Lemma same_second_saves_share_one_file_witness :
  let m1 := Metrics.start_operation "transcribe_chunk" 100 in
  let m2 := Metrics.start_operation "transcribe_chunk" (1001 # 10) in
  Metrics.operation m1 = Metrics.operation m2 /\
  Qfloor (1002 # 10) = Qfloor (1007 # 10) /\
  Metrics.save_metrics Metrics.sample_strftime
    (Metrics.save_metrics Metrics.sample_strftime ∅ m1 (1002 # 10)) m2 (1007 # 10)
  = Metrics.save_metrics Metrics.sample_strftime ∅ m2 (1007 # 10).
Proof.
  intros m1 m2. split; [reflexivity | split; [reflexivity | ]].
  destruct (same_second_saves_share_one_file Metrics.sample_strftime ∅ m1 m2
              (1002 # 10) (1007 # 10)) as (_ & H & _);
    [reflexivity | reflexivity | exact H].
Defined.

Section SummaryFacts.

Import Metrics.

Variable strftime : Z -> string.

Lemma is_json_cons c rest :
  is_json (String c rest) = String.eqb (String c rest) ".json" || is_json rest.
Proof. reflexivity. Qed.

Lemma stem_cons c rest :
  stem (String c rest)
  = if String.eqb rest ".json" then String c EmptyString else String c (stem rest).
Proof. reflexivity. Qed.

Lemma is_json_app (x : string) : is_json (x +:+ ".json") = true.
Proof.
  induction x as [ | c x IH]; [reflexivity | ].
  rewrite string_app_cons, is_json_cons, IH. apply orb_true_r.
Qed.

Lemma stem_app (x : string) : x <> "" -> stem (x +:+ ".json") = x.
Proof.
  induction x as [ | c x IH]; [congruence | intros _].
  rewrite string_app_cons, stem_cons.
  destruct x as [ | c' x]; [reflexivity | ].
  destruct (String.eqb_spec (String c' x +:+ ".json") ".json") as [Heq | _].
  - apply (f_equal String.length) in Heq. rewrite string_length_app in Heq.
    cbn in Heq. lia.
  - rewrite IH by discriminate. reflexivity.
Qed.

Lemma prefix_app (p a b : string) :
  String.prefix p a = true -> String.prefix p (a +:+ b) = true.
Proof.
  revert a. induction p as [ | c p IH]; intros a H.
  - destruct (a +:+ b); reflexivity.
  - destruct a as [ | c' a]; [discriminate H | ].
    rewrite string_app_cons. cbn [String.prefix] in *. destruct (ascii_dec c c'); [ | discriminate H].
    apply IH. exact H.
Qed.

(** The file [save_metrics] writes for an operation is found by every
    filter that is a prefix of the operation's name. *)
Lemma saved_file_matches_prefix (op : string) (m : QualityMetrics) (now : Q) :
  String.prefix op (operation m) = true ->
  is_json (filename strftime m now) = true /\
  String.prefix op (stem (filename strftime m now)) = true.
Proof.
  intros Hprefix. unfold filename.
  replace (operation m +:+ "_" +:+ strftime (Qfloor now) +:+ ".json")
    with ((operation m +:+ "_" +:+ strftime (Qfloor now)) +:+ ".json")
    by (rewrite !string_app_assoc; reflexivity).
  split; [apply is_json_app | ].
  rewrite stem_app.
  - apply prefix_app. exact Hprefix.
  - destruct (operation m); discriminate.
Qed.

Lemma glob_json_spec (metrics_dir : directory) name content :
  In (name, content) (glob_json metrics_dir)
  <-> metrics_dir !! name = Some content /\ is_json name = true.
Proof.
  unfold glob_json. rewrite filter_In, <- list_elem_of_In, elem_of_map_to_list.
  reflexivity.
Qed.

Lemma read_files_totals files : forall acc,
  let acc' := fold_left read_file files acc in
  Running.total_operations acc'
  = (Running.total_operations acc
     + Z.of_nat (length (List.filter readable files)))%Z /\
  Running.successful_operations acc'
  = (Running.successful_operations acc
     + Z.of_nat (length (List.filter succeeded files)))%Z /\
  Running.total_retries acc'
  = (Running.total_retries acc + Zsum (map (counted Stored.retries) files))%Z /\
  Running.total_api_calls acc'
  = (Running.total_api_calls acc + Zsum (map (counted Stored.api_calls) files))%Z /\
  Running.total_api_tokens acc'
  = (Running.total_api_tokens acc + Zsum (map (counted Stored.api_tokens) files))%Z.
Proof.
  induction files as [ | file files IH]; intros acc.
  - cbn. repeat split; lia.
  - cbn [fold_left]. cbn zeta in *.
    destruct (IH (read_file acc file)) as (H1 & H2 & H3 & H4 & H5).
    rewrite H1, H2, H3, H4, H5. clear IH H1 H2 H3 H4 H5.
    cbn [List.filter map Zsum fold_right].
    fold (Zsum (map (counted Stored.retries) files)).
    fold (Zsum (map (counted Stored.api_calls) files)).
    fold (Zsum (map (counted Stored.api_tokens) files)).
    set (n1 := List.filter readable files). set (n2 := List.filter succeeded files).
    set (z3 := Zsum (map (counted Stored.retries) files)).
    set (z4 := Zsum (map (counted Stored.api_calls) files)).
    set (z5 := Zsum (map (counted Stored.api_tokens) files)).
    unfold read_file, readable, succeeded, counted.
    destruct (snd file) as [metrics | ];
      [destruct (Stored.duration metrics), (Stored.success metrics) | ];
      cbn [length Running.total_operations Running.successful_operations
           Running.total_retries Running.total_api_calls Running.total_api_tokens].
    all: repeat split; lia.
Qed.

Lemma read_files_duration files : forall acc,
  Running.total_duration (fold_left read_file files acc)
  == Running.total_duration acc + Retry.Qsum (map counted_duration files).
Proof.
  induction files as [ | file files IH]; intros acc.
  - cbn [fold_left map Retry.Qsum fold_right]. ring.
  - cbn [fold_left map]. rewrite IH.
    change (Retry.Qsum (counted_duration file :: map counted_duration files))
      with (counted_duration file + Retry.Qsum (map counted_duration files)).
    unfold read_file, counted_duration.
    destruct (snd file) as [metrics | ];
      [destruct (Stored.duration metrics) | ]; cbn [Running.total_duration]; ring.
Qed.

(** C10: with a non-empty operation filter the summary reads exactly the
    [.json] files whose stem starts with the filter; the file saved for
    any operation whose name starts with the filter is among them (the
    records of [transcribe_chunk] under the filter [transcribe]); and
    every file read is counted in the totals, from which the success
    rate and the averages are computed. *)
Theorem name_filter_selects_by_prefix (metrics_dir : directory) (op : string) :
  op <> "" ->
  let files := metrics_files metrics_dir (Some op) in
  let s := get_metrics_summary metrics_dir (Some op) in
  (forall name content,
     In (name, content) files
     <-> metrics_dir !! name = Some content /\ is_json name = true /\
         String.prefix op (stem name) = true) /\
  (forall m now, String.prefix op (operation m) = true ->
     is_json (filename strftime m now) = true /\
     String.prefix op (stem (filename strftime m now)) = true) /\
  total_operations s = Z.of_nat (length (List.filter readable files)) /\
  total_api_calls s = Zsum (map (counted Stored.api_calls) files) /\
  total_api_tokens s = Zsum (map (counted Stored.api_tokens) files) /\
  ((total_operations s > 0)%Z ->
   success_rate s
   = inject_Z (Z.of_nat (length (List.filter succeeded files)))
     / inject_Z (total_operations s) /\
   average_retries s
   = inject_Z (Zsum (map (counted Stored.retries) files))
     / inject_Z (total_operations s) /\
   average_duration s
   == Retry.Qsum (map counted_duration files) / inject_Z (total_operations s)).
Proof.
  intros Hop files s. subst files s.
  destruct op as [ | c op]; [congruence | ].
  unfold get_metrics_summary, summarize.
  set (files := metrics_files metrics_dir (Some (String c op))).
  destruct (read_files_totals files no_counts) as (H1 & H2 & H3 & H4 & H5).
  pose proof (read_files_duration files no_counts) as H6.
  cbn zeta in *.
  cbn [total_operations total_api_calls total_api_tokens success_rate
       average_retries average_duration].
  rewrite H1, H2, H3, H4, H5.
  change (Running.total_operations no_counts) with 0%Z.
  change (Running.successful_operations no_counts) with 0%Z.
  change (Running.total_retries no_counts) with 0%Z.
  change (Running.total_api_calls no_counts) with 0%Z.
  change (Running.total_api_tokens no_counts) with 0%Z.
  change (Running.total_duration no_counts) with 0 in H6.
  rewrite !Z.add_0_l.
  split; [ | split; [ | split; [ | split; [ | split]]]]; try reflexivity.
  - intros name content. unfold files.
    change (metrics_files metrics_dir (Some (String c op)))
      with (List.filter (fun file => String.prefix (String c op) (stem (fst file)))
              (glob_json metrics_dir)).
    rewrite filter_In, glob_json_spec. cbn [fst]. tauto.
  - intros m now. apply saved_file_matches_prefix.
  - intros Hpos. destruct (_ >? 0)%Z eqn:Hgt; [ | lia].
    split; [reflexivity | split; [reflexivity | ]].
    rewrite H6. rewrite Qplus_0_l. reflexivity.
Qed.

End SummaryFacts.

Lemma name_filter_selects_by_prefix_witness :
  let s := Metrics.get_metrics_summary Metrics.sample_directory (Some "transcribe") in
  "transcribe" <> "" /\
  In ("transcribe_chunk_20240101_115958.json",
      Metrics.finished_record "transcribe_chunk" false 1 0)
    (Metrics.metrics_files Metrics.sample_directory (Some "transcribe")) /\
  Metrics.total_operations s = 2%Z /\
  Metrics.total_api_calls s = 1%Z /\
  Metrics.success_rate s == 1 # 2.
Proof.
  intros s. split; [discriminate | ].
  destruct (name_filter_selects_by_prefix Metrics.sample_strftime
              Metrics.sample_directory "transcribe") as (Hin & _);
    [discriminate | ].
  split; [ | split; [ | split]]; [ | vm_compute; reflexivity ..].
  apply (proj2 (Hin _ _)). split; [ | split]; vm_compute; reflexivity.
Defined.

(** ** Fan-out over the links and consolidation *)

Section PipelineFacts.

Import App.

Lemma complete_others {A : Type} (tasks : list A) (order : list nat) :
  forall (buffer : gmap nat A) i,
  ~ In i order -> fold_left (complete_task tasks) order buffer !! i = buffer !! i.
Proof.
  induction order as [ | j order IH]; intros buffer i Hi; [reflexivity | ].
  cbn [fold_left]. rewrite IH by (intros H; apply Hi; right; exact H).
  unfold complete_task. destruct (tasks !! j); [ | reflexivity].
  apply lookup_insert_ne. intros ->. apply Hi. left. reflexivity.
Qed.

(** Once a task has completed, its slot holds its result, whatever
    completed before or after it. *)
Lemma complete_slot {A : Type} (tasks : list A) (order : list nat) :
  forall (buffer : gmap nat A) i r,
  In i order -> tasks !! i = Some r ->
  fold_left (complete_task tasks) order buffer !! i = Some r.
Proof.
  induction order as [ | j order IH]; intros buffer i r Hi Hr; [destruct Hi | ].
  cbn [fold_left]. destruct (in_dec Nat.eq_dec i order) as [Hlater | Hlast].
  - apply IH; assumption.
  - destruct Hi as [-> | Hi]; [ | contradiction].
    rewrite complete_others by exact Hlast.
    unfold complete_task. rewrite Hr. apply lookup_insert_eq.
Qed.

Lemma omap_positions {A : Type} (f : nat -> option A) (l : list A) : forall k,
  (forall i, (i < length l)%nat -> f (k + i)%nat = l !! i) ->
  omap f (seq k (length l)) = l.
Proof.
  induction l as [ | x l IH]; intros k Hf; [reflexivity | ].
  cbn [length seq]. change (omap f (k :: seq (S k) (length l)))
    with (match f k with
          | Some y => y :: omap f (seq (S k) (length l))
          | None => omap f (seq (S k) (length l))
          end).
  pose proof (Hf 0%nat ltac:(cbn; lia)) as H0. rewrite Nat.add_0_r in H0.
  rewrite H0. cbn [lookup list_lookup]. f_equal. apply IH.
  intros i Hi. specialize (Hf (S i) ltac:(cbn; lia)).
  replace (S k + i)%nat with (k + S i)%nat by lia. exact Hf.
Qed.

(** [gather] returns the results in the order of its tasks for every
    completion order in which each task completes. *)
Lemma gather_in_task_order {A : Type} (tasks : list A) (order : list nat) :
  (forall i, (i < length tasks)%nat -> In i order) ->
  gather tasks order = tasks.
Proof.
  intros Hall. unfold gather. apply omap_positions. intros i Hi.
  destruct (lookup_lt_is_Some_2 tasks i Hi) as [r Hr].
  rewrite Hr. apply complete_slot; [apply Hall; exact Hi | exact Hr].
Qed.

Variable path : Type.
Variable extract_audio : string -> call (option path * option string).
Variable transcribe : option path -> call (option string).
Variable analyze_individual : string -> string -> call (option (gmap string Analysis.json)).
Variable cleanup : option path -> call unit.
Variable analyze_consolidated :
  list (gmap string Analysis.json) -> string -> call (option (gmap string Analysis.json)).

Lemma errors_of_nil (outcomes : list item_result) :
  errors_of outcomes = [] <-> forallb is_completed outcomes = true.
Proof.
  induction outcomes as [ | [error | text a] outcomes IH]; cbn.
  - tauto.
  - split; discriminate.
  - exact IH.
Qed.

Lemma analyses_of_length (outcomes : list item_result) :
  forallb is_completed outcomes = true ->
  length (analyses_of outcomes) = length outcomes.
Proof.
  induction outcomes as [ | [error | text a] outcomes IH]; intros H.
  - reflexivity.
  - discriminate H.
  - change (length (a :: analyses_of outcomes) = S (length outcomes)).
    cbn [length]. rewrite IH by exact H. reflexivity.
Qed.

(** C6: after the links were processed, the step of [main] calls the
    consolidated analysis exactly once, on the analyses of all links in
    their order and the theme, when there is more than one link and
    every link completed; otherwise it makes no such call.  In both
    cases the individual results already held by the session stay as
    they are. *)
Theorem consolidation_iff_all_completed (valid_urls : list string) (theme : string)
    (order : list nat) (state : session_state) :
  (forall i, (i < length valid_urls)%nat -> In i order) ->
  let outcomes :=
    map (process_url path extract_audio transcribe analyze_individual cleanup theme)
      valid_urls in
  let after :=
    consolidate_if_multiple path extract_audio transcribe analyze_individual cleanup
      analyze_consolidated valid_urls theme order state in
  snd after
  = (if (1 <? length valid_urls)%nat && forallb is_completed outcomes
     then [(analyses_of outcomes, theme)] else []) /\
  (length (snd after) = 1%nat
   <-> (1 < length valid_urls)%nat /\ forallb is_completed outcomes = true) /\
  (length (snd after) <= 1)%nat /\
  (forallb is_completed outcomes = true ->
   length (analyses_of outcomes) = length valid_urls) /\
  results (fst after) = results state.
Proof.
  intros Hall outcomes after.
  assert (Hcalls : snd after
                   = if (1 <? length valid_urls)%nat && forallb is_completed outcomes
                     then [(analyses_of outcomes, theme)] else []).
  { subst after. unfold consolidate_if_multiple.
    destruct (1 <? length valid_urls)%nat; [ | reflexivity].
    cbn [snd andb]. unfold generate_consolidated_analysis.
    rewrite gather_in_task_order by (rewrite length_map; exact Hall).
    fold outcomes. pose proof (errors_of_nil outcomes) as Herr.
    destruct (errors_of outcomes) as [ | e es].
    - rewrite (proj1 Herr eq_refl). reflexivity.
    - destruct (forallb is_completed outcomes); [ | reflexivity].
      destruct Herr as [_ Herr]. discriminate (Herr eq_refl). }
  split; [exact Hcalls | ]. rewrite Hcalls.
  split; [ | split; [ | split]].
  - destruct (Nat.ltb_spec 1 (length valid_urls)) as [Hlt | Hge];
      destruct (forallb is_completed outcomes); cbn; split;
      try tauto; try discriminate; try lia; intros [H1 H2];
      try lia; try discriminate.
  - destruct (_ && _); cbn; lia.
  - intros Hdone. rewrite analyses_of_length by exact Hdone.
    subst outcomes. apply length_map.
  - subst after. unfold consolidate_if_multiple.
    destruct (1 <? length valid_urls)%nat; [ | reflexivity]. cbn [fst].
    destruct (returned _) as [value | ]; [ | reflexivity].
    destruct (decide (value = ∅)); reflexivity.
Qed.

End PipelineFacts.

Lemma consolidation_iff_all_completed_witness :
  let both := ["https://youtu.be/a"; "https://youtu.be/b"] in
  let one_broken := ["https://youtu.be/a"; "https://youtu.be/broken"] in
  let idle := {| App.results := map (App.sample_process_url "industrie") one_broken;
                 App.consolidated_analysis := None |} in
  let stage urls :=
    App.consolidate_if_multiple string App.sample_extract App.sample_transcribe
      App.sample_analyze App.sample_cleanup App.sample_consolidate urls "industrie"
      [1; 0]%nat idle in
  (forall i, (i < 2)%nat -> In i [1; 0]%nat) /\
  length (snd (stage both)) = 1%nat /\
  snd (stage one_broken) = [] /\
  App.results (fst (stage one_broken)) = App.results idle.
Proof.
  intros both one_broken idle stage.
  assert (Hall : forall i, (i < 2)%nat -> In i [1; 0]%nat).
  { intros i Hi. do 2 (destruct i as [ | i]; [cbn; tauto | ]). lia. }
  split; [exact Hall | ].
  destruct (consolidation_iff_all_completed string App.sample_extract
              App.sample_transcribe App.sample_analyze App.sample_cleanup
              App.sample_consolidate both "industrie" [1; 0]%nat idle Hall)
    as (_ & Hone & _).
  destruct (consolidation_iff_all_completed string App.sample_extract
              App.sample_transcribe App.sample_analyze App.sample_cleanup
              App.sample_consolidate one_broken "industrie" [1; 0]%nat idle Hall)
    as (Hnone & _ & _ & _ & Hkept).
  split; [ | split; [ | exact Hkept]].
  - apply (proj2 Hone). split; [cbn; lia | vm_compute; reflexivity].
  - unfold stage. rewrite Hnone. vm_compute. reflexivity.
Defined.

(** ** The tasks of the links under the event loop *)

Section FanOutFacts.

Import App FanOut.

Variable path : Type.
Variable extract_audio : string -> call (option path * option string).
Variable transcribe : option path -> call (option string).
Variable analyze_individual : string -> string -> call (option (gmap string Analysis.json)).
Variable cleanup : option path -> call unit.
Variable theme : string.

Local Abbreviation step :=
  (resume path extract_audio transcribe analyze_individual cleanup theme).
Local Abbreviation left_of :=
  (turns_left path extract_audio transcribe analyze_individual cleanup theme).
Local Abbreviation from :=
  (turns_from path extract_audio transcribe analyze_individual cleanup theme).
Local Abbreviation loop :=
  (event_loop path extract_audio transcribe analyze_individual cleanup theme).

Ltac by_cases :=
  repeat match goal with
    | |- context [match ?x with _ => _ end] =>
        lazymatch x with
        | context [match _ with _ => _ end] => fail
        | _ => destruct x; cbn
        end
    end.

Lemma resume_awaits (c : coroutine path) :
  ended path c = false -> (awaits_ahead path (step c) < awaits_ahead path c)%nat.
Proof.
  destruct c; cbn; intros H; try discriminate H; by_cases; lia.
Qed.

Lemma resume_never_raises (c : coroutine path) :
  ended path c = false -> raised path (Some (step c)) = false.
Proof.
  destruct c; cbn; intros H; try discriminate H; by_cases; reflexivity.
Qed.

Lemma turns_from_enough fuel : forall c : coroutine path,
  (awaits_ahead path c <= fuel)%nat -> from (S fuel) c = from fuel c.
Proof.
  induction fuel as [ | fuel IH]; intros c Hc.
  - destruct c; cbn in Hc; try lia. reflexivity.
  - change (from (S (S fuel)) c)
      with (if ended path c then 0%nat else S (from (S fuel) (step c))).
    change (from (S fuel) c)
      with (if ended path c then 0%nat else S (from fuel (step c))).
    destruct (ended path c) eqn:He; [reflexivity | ].
    rewrite IH; [reflexivity | ].
    pose proof (resume_awaits c He). lia.
Qed.

Lemma turns_left_step (c : coroutine path) :
  ended path c = false -> left_of c = S (left_of (step c)).
Proof.
  intros He. unfold turns_left.
  change (from 4 c) with (if ended path c then 0%nat else S (from 3 (step c))).
  rewrite He. f_equal. symmetry. apply turns_from_enough.
  pose proof (resume_awaits c He). destruct c; cbn in *; lia.
Qed.

Lemma turns_left_ended (c : coroutine path) :
  left_of c = 0%nat <-> ended path c = true.
Proof.
  unfold turns_left. cbn [turns_from]. destruct (ended path c); split; auto; discriminate.
Qed.


Lemma turns_left_bound (c : coroutine path) : (left_of c <= 4)%nat.
Proof.
  unfold turns_left. generalize 4%nat. intros fuel. revert c.
  induction fuel as [ | fuel IH]; intros c; cbn [turns_from]; [lia | ].
  destruct (ended path c); [lia | ]. specialize (IH (step c)). lia.
Qed.

Lemma iter_ended n (outcome : call item_result) :
  Nat.iter n step (Ended outcome) = Ended outcome.
Proof. induction n as [ | n IH]; [reflexivity | ]. rewrite Nat.iter_succ_r. exact IH. Qed.

Lemma iter_turns fuel : forall c : coroutine path,
  (awaits_ahead path c <= fuel)%nat ->
  Nat.iter (from fuel c) step c = Nat.iter fuel step c.
Proof.
  induction fuel as [ | fuel IH]; intros c Hc; [reflexivity | ].
  cbn [turns_from]. destruct (ended path c) eqn:He.
  - destruct c; try discriminate He. symmetry. apply iter_ended.
  - rewrite !Nat.iter_succ_r. apply IH.
    pose proof (resume_awaits c He). lia.
Qed.

(** A coroutine run alone ends with the outcome of [process_url]. *)
Lemma run_alone (url : string) :
  Nat.iter (turns path extract_audio transcribe analyze_individual cleanup theme url)
    step (AwaitExtract url)
  = Ended (Return (process_url path extract_audio transcribe analyze_individual
                     cleanup theme url)).
Proof.
  unfold turns, turns_left. rewrite iter_turns by (cbn; lia).
  rewrite !Nat.iter_succ_r. cbn [Nat.iter nat_rect].
  unfold process_url. cbn [resume].
  destruct (extract_audio url) as [[audio_path [[ | a error] | ]] | message];
    cbn [resume]; try reflexivity.
  all: destruct (transcribe audio_path) as [[[ | b transcript] | ] | message];
    cbn [resume]; try reflexivity.
  all: destruct (analyze_individual (String b transcript) theme)
       as [[result | ] | message]; cbn [resume]; try reflexivity.
  all: destruct (decide (result = ∅)); cbn [resume]; try reflexivity.
  all: destruct (cleanup audio_path); reflexivity.
Qed.

Lemma turns_positive (url : string) :
  (1 <= turns path extract_audio transcribe analyze_individual cleanup theme url <= 4)%nat.
Proof.
  unfold turns. split; [ | apply turns_left_bound].
  rewrite (turns_left_step (AwaitExtract url) eq_refl). lia.
Qed.

Lemma unfinished_spec (pool : list (coroutine path)) i :
  In i (unfinished path pool)
  <-> exists c, pool !! i = Some c /\ ended path c = false.
Proof.
  unfold unfinished. rewrite filter_In, in_seq. split.
  - intros [_ H]. destruct (pool !! i) as [c | ]; [ | discriminate H].
    exists c. split; [reflexivity | ]. destruct (ended path c); [discriminate H | reflexivity].
  - intros (c & Hc & He). split.
    + split; [lia | ]. apply lookup_lt_Some in Hc. lia.
    + rewrite Hc, He. reflexivity.
Qed.

Lemma sum_after_turn (pool : list (coroutine path)) : forall i c,
  pool !! i = Some c -> ended path c = false ->
  list_sum (map left_of pool) = S (list_sum (map left_of (alter step i pool))).
Proof.
  induction pool as [ | c0 pool IH]; intros i c Hi He; [discriminate Hi | ].
  destruct i as [ | i].
  - injection Hi as ->.
    change (list_sum (map left_of (c :: pool))
            = S (left_of (step c) + list_sum (map left_of pool))).
    change (list_sum (map left_of (c :: pool)))
      with (left_of c + list_sum (map left_of pool))%nat.
    rewrite (turns_left_step c He). reflexivity.
  - change (left_of c0 + list_sum (map left_of pool)
            = S (left_of c0 + list_sum (map left_of (alter step i pool))))%nat.
    rewrite (IH i c Hi He). lia.
Qed.

Lemma all_ended (pool : list (coroutine path)) :
  (forall i c, pool !! i = Some c -> left_of c = 0%nat) ->
  pool = map (fun c => Nat.iter (left_of c) step c) pool
  /\ list_sum (map left_of pool) = 0%nat.
Proof.
  induction pool as [ | c pool IH]; intros H; [split; reflexivity | ].
  destruct IH as [IH1 IH2]; [intros i c' Hi; apply (H (S i) c' Hi) | ].
  pose proof (H 0%nat c eq_refl) as Hc.
  change (c :: pool = Nat.iter (left_of c) step c
                      :: map (fun c => Nat.iter (left_of c) step c) pool
          /\ (left_of c + list_sum (map left_of pool) = 0)%nat).
  rewrite Hc, <- IH1, IH2. split; reflexivity.
Qed.

Lemma sum_zero (pool : list (coroutine path)) :
  list_sum (map left_of pool) = 0%nat ->
  forall i c, pool !! i = Some c -> left_of c = 0%nat.
Proof.
  induction pool as [ | c0 pool IH]; intros H i c Hi; [discriminate Hi | ].
  change (left_of c0 + list_sum (map left_of pool) = 0)%nat in H.
  destruct i as [ | i].
  - injection Hi as <-. lia.
  - apply (IH ltac:(lia) i c Hi).
Qed.

(** Whatever the loop chooses, it runs every task to its own end, in
    exactly the turns the task takes alone. *)
Lemma event_loop_runs pick fuel : forall pool : list (coroutine path),
  (list_sum (map left_of pool) <= fuel)%nat ->
  snd (loop pick fuel pool) = map (fun c => Nat.iter (left_of c) step c) pool /\
  (forall i c, pool !! i = Some c ->
     count_occ Nat.eq_dec (fst (loop pick fuel pool)) i = left_of c) /\
  length (fst (loop pick fuel pool)) = list_sum (map left_of pool).
Proof.
  assert (Hidle : forall pool : list (coroutine path),
             (forall i c, pool !! i = Some c -> left_of c = 0%nat) ->
             pool = map (fun c => Nat.iter (left_of c) step c) pool /\
             (forall i c, pool !! i = Some c ->
                count_occ Nat.eq_dec (@nil nat) i = left_of c) /\
             length (@nil nat) = list_sum (map left_of pool)).
  { intros pool H. destruct (all_ended pool H) as [H1 H2].
    split; [exact H1 | split; [ | rewrite H2; reflexivity]].
    intros i c Hi. rewrite (H i c Hi). reflexivity. }
  induction fuel as [ | fuel IH]; intros pool Hsum.
  - apply Hidle. apply sum_zero. lia.
  - cbn [event_loop]. destruct (unfinished path pool) as [ | j0 ready] eqn:Hready.
    + apply Hidle. intros i c Hi. apply turns_left_ended.
      destruct (ended path c) eqn:He; [reflexivity | ].
      assert (Hin : In i (unfinished path pool))
        by (apply unfinished_spec; exists c; split; assumption).
      rewrite Hready in Hin. destruct Hin.
    + set (j := nth (pick pool mod length (j0 :: ready)) (j0 :: ready) 0%nat).
      assert (Hj : In j (unfinished path pool)).
      { rewrite Hready. apply nth_In. apply Nat.mod_upper_bound. discriminate. }
      apply unfinished_spec in Hj. destruct Hj as (c & Hc & He).
      rewrite list_lookup_alter_eq, Hc. cbn [fmap option_fmap option_map].
      rewrite (resume_never_raises c He).
      pose proof (sum_after_turn pool j c Hc He) as Hturn.
      destruct (IH (alter step j pool) ltac:(lia)) as (Hfinal & Hcount & Hlen).
      destruct (loop pick fuel (alter step j pool)) as [trace final].
      cbn [fst snd] in *. split; [ | split].
      * rewrite Hfinal. apply list_eq. intros k.
        rewrite !list_lookup_fmap.
        destruct (decide (j = k)) as [<- | Hne].
        -- rewrite list_lookup_alter_eq, Hc. cbn [fmap option_fmap option_map].
           rewrite (turns_left_step c He), Nat.iter_succ_r. reflexivity.
        -- rewrite list_lookup_alter_ne by exact Hne. reflexivity.
      * intros i c' Hi. destruct (Nat.eq_dec j i) as [<- | Hne].
        -- rewrite count_occ_cons_eq by reflexivity.
           rewrite (Hcount j (step c)); [ | rewrite list_lookup_alter_eq, Hc; reflexivity].
           rewrite Hc in Hi. injection Hi as <-.
           symmetry. apply turns_left_step. exact He.
        -- rewrite count_occ_cons_neq by exact Hne.
           apply Hcount. rewrite list_lookup_alter_ne by exact Hne. exact Hi.
      * cbn [length]. rewrite Hlen, Hturn. reflexivity.
Qed.

(** At every moment a task is where its own turns have taken it. *)
Lemma event_loop_frame pick fuel : forall (pool : list (coroutine path)) i c,
  pool !! i = Some c ->
  snd (loop pick fuel pool) !! i
  = Some (Nat.iter (count_occ Nat.eq_dec (fst (loop pick fuel pool)) i) step c).
Proof.
  induction fuel as [ | fuel IH]; intros pool i c Hi; [exact Hi | ].
  cbn [event_loop]. destruct (unfinished path pool) as [ | j0 ready]; [exact Hi | ].
  set (j := nth (pick pool mod length (j0 :: ready)) (j0 :: ready) 0%nat).
  assert (Hturn : alter step j pool !! i
                  = Some (if Nat.eq_dec j i then step c else c)).
  { destruct (Nat.eq_dec j i) as [<- | Hne].
    - rewrite list_lookup_alter_eq, Hi. reflexivity.
    - rewrite list_lookup_alter_ne by exact Hne. exact Hi. }
  destruct (raised path (alter step j pool !! j)).
  - cbn [fst snd]. rewrite Hturn.
    destruct (Nat.eq_dec j i) as [<- | Hne].
    + rewrite count_occ_cons_eq by reflexivity. reflexivity.
    + rewrite count_occ_cons_neq by exact Hne. reflexivity.
  - specialize (IH (alter step j pool) i _ Hturn).
    destruct (loop pick fuel (alter step j pool)) as [trace final].
    cbn [fst snd] in *. rewrite IH.
    destruct (Nat.eq_dec j i) as [<- | Hne].
    + rewrite count_occ_cons_eq by reflexivity. rewrite Nat.iter_succ_r. reflexivity.
    + rewrite count_occ_cons_neq by exact Hne. reflexivity.
Qed.

Lemma results_of_ended (outcomes : list item_result) :
  results_of path (map (fun r => Ended (Return r)) outcomes) = Some (Return outcomes).
Proof.
  induction outcomes as [ | r outcomes IH]; [reflexivity | ].
  cbn [map results_of]. rewrite IH. reflexivity.
Qed.


Lemma sum_bound (pool : list (coroutine path)) :
  (list_sum (map left_of pool) <= 4 * length pool)%nat.
Proof.
  induction pool as [ | c pool IH]; [cbn; lia | ].
  change (left_of c + list_sum (map left_of pool) <= 4 * S (length pool))%nat.
  pose proof (turns_left_bound c). lia.
Qed.

(** C5: for every list of links and every order in which the event loop
    serves the tasks, awaiting [asyncio.gather] gives one outcome per
    link, at the position of the link: what [process_url] produces for
    that link, an analysis or the cause of the failure, and never an
    exception, since [process_url] turns every failure of a collaborator
    into an error result.  No task is cancelled or held back by what
    happens to another one: each task is served exactly the turns it
    takes when it runs alone, between one and four, so the run has as
    many turns as its tasks need and every task reaches its own end; at
    every moment of the run a task is where its own turns have taken
    it, whatever the other tasks did.  Every task is in the order of
    completion, for which [gather] returns the results by position. *)
Theorem fan_out_keeps_every_outcome_in_place (urls : list string)
    (pick : list (coroutine path) -> nat) :
  let run := process_url path extract_audio transcribe analyze_individual cleanup
               theme in
  let alone := turns path extract_audio transcribe analyze_individual cleanup theme in
  let after fuel := loop pick fuel (map AwaitExtract urls) in
  let trace :=
    fst (gather_links path extract_audio transcribe analyze_individual cleanup theme
           pick urls) in
  let final :=
    snd (gather_links path extract_audio transcribe analyze_individual cleanup theme
           pick urls) in
  results_of path final = Some (Return (map run urls)) /\
  length (map run urls) = length urls /\
  (forall i url, urls !! i = Some url ->
     final !! i = Some (Ended (Return (run url))) /\
     count_occ Nat.eq_dec trace i = alone url /\
     (1 <= alone url <= 4)%nat) /\
  length trace = list_sum (map alone urls) /\
  (forall fuel i url, urls !! i = Some url ->
     snd (after fuel) !! i
     = Some (Nat.iter (count_occ Nat.eq_dec (fst (after fuel)) i) step
               (AwaitExtract url))) /\
  gather (map run urls) (completion_order trace) = map run urls.
Proof.
  intros run alone after trace final. subst trace final. unfold gather_links.
  destruct (event_loop_runs pick (4 * length urls) (map AwaitExtract urls))
    as (Hfinal & Hcount & Hlen).
  { pose proof (sum_bound (map AwaitExtract urls)) as H.
    rewrite length_map in H. exact H. }
  set (trace := fst (loop pick (4 * length urls) (map AwaitExtract urls))) in *.
  set (final := snd (loop pick (4 * length urls) (map AwaitExtract urls))) in *.
  assert (Hended : final = map (fun r => Ended (Return r)) (map run urls)).
  { rewrite Hfinal, !map_map. apply map_ext. intros url. apply run_alone. }
  assert (Hturns : forall i url, urls !! i = Some url ->
                     count_occ Nat.eq_dec trace i = alone url).
  { intros i url Hi. apply (Hcount i (AwaitExtract url)).
    rewrite list_lookup_fmap, Hi. reflexivity. }
  split; [rewrite Hended; apply results_of_ended | ].
  split; [apply length_map | ].
  split; [ | split; [ | split]].
  - intros i url Hi. split; [ | split; [apply Hturns; exact Hi | apply turns_positive]].
    rewrite Hended, !list_lookup_fmap, Hi. reflexivity.
  - rewrite Hlen, map_map. reflexivity.
  - intros fuel i url Hi. apply event_loop_frame.
    rewrite list_lookup_fmap, Hi. reflexivity.
  - apply gather_in_task_order. rewrite length_map. intros i Hi.
    destruct (lookup_lt_is_Some_2 urls i Hi) as [url Hurl].
    unfold completion_order. apply nodup_In.
    apply (count_occ_In Nat.eq_dec). rewrite (Hturns i url Hurl).
    pose proof (turns_positive url) as Hpos. fold alone in Hpos. lia.
Qed.

End FanOutFacts.


Lemma fan_out_keeps_every_outcome_in_place_witness :
  let r := FanOut.gather_links string App.sample_extract App.sample_transcribe
             App.sample_analyze App.sample_cleanup "industrie"
             FanOut.sample_order App.five_links in
  fst r = [0; 4; 3; 2; 1; 0; 4; 2; 1; 0; 4; 2; 1; 0; 1; 2; 4]%nat /\
  FanOut.results_of string (snd r)
  = Some (App.Return (map (App.sample_process_url "industrie") App.five_links)) /\
  map App.is_completed (map (App.sample_process_url "industrie") App.five_links)
  = [true; true; true; false; true] /\
  snd r !! 3%nat
  = Some (FanOut.Ended (App.Return (App.Failed "URL YouTube invalide"))) /\
  count_occ Nat.eq_dec (fst r) 3%nat = 1%nat /\
  count_occ Nat.eq_dec (fst r) 4%nat = 4%nat.
Proof.
  intros r. subst r.
  destruct (fan_out_keeps_every_outcome_in_place string App.sample_extract
              App.sample_transcribe App.sample_analyze App.sample_cleanup
              "industrie" App.five_links FanOut.sample_order)
    as (Hres & _ & Hat & _).
  split; [vm_compute; reflexivity | ].
  split; [exact Hres | ].
  split; [vm_compute; reflexivity | ].
  destruct (Hat 3%nat "https://youtu.be/broken" eq_refl) as (Hbroken & Hone & _).
  destruct (Hat 4%nat "https://youtu.be/e" eq_refl) as (_ & Hfour & _).
  split; [exact Hbroken | ].
  split; [rewrite Hone | rewrite Hfour]; vm_compute; reflexivity.
Defined.

(** * Further properties *)

(** ** Retry loop: outcomes, backoff schedule, worst case *)

Section RetryOutcomes.

Import Retry.

Context {V E : Type}.
Variable func : nat -> call V E.
Variable max_retries : Z.
Variables delay backoff : Q.
Variable exceptions : E -> bool.
Variable timeout : option Q.
Variable on_retry : bool.

Ltac one_attempt :=
  cbn [attempts_loop];
  match goal with
  | |- context [await_attempt _ _ _ _ ?k] =>
      destruct (await_attempt V E func timeout k) as [[v' | [ | e]] spent] eqn:Hawait
  end;
  cbn [fst];
  repeat match goal with
    | |- context [exceptions ?e] => destruct (exceptions e) eqn:?
    | |- context [(Z.of_nat ?k <? max_retries)%Z] =>
        destruct (Z.of_nat k <? max_retries)%Z eqn:?
    end;
  rewrite ?events_logged, ?events_done, ?result_logged, ?finished_logged.

Ltac view_events :=
  rewrite ?calls_cons, ?sleeps_cons, ?observer_calls_cons; cbn [app flat_map].

Lemma retried_then_returned v m : forall s len last d now,
  (Z.of_nat (s + m) <= max_retries)%Z -> (m < len)%nat ->
  (forall j, (s <= j < s + m)%nat ->
     captured V E func exceptions timeout j = true
     \/ failure V E func timeout j = Some TimeoutError) ->
  fst (await_attempt V E func timeout (s + m)) = Returns v ->
  let r := attempts_loop V E func max_retries backoff exceptions timeout on_retry
             (seq s len) last d now in
  let n := length (List.filter (captured V E func exceptions timeout) (seq s m)) in
  result r = Returned v /\
  calls (events r) = seq s (S m) /\
  sleeps (events r) = backoff_delays backoff d n /\
  length (observer_calls (events r)) = (if on_retry then n else 0)%nat.
Proof.
  induction m as [ | m IH]; intros s len last d now Hs Hlen Hall Hret r n;
    subst r n;
    (destruct len as [ | len]; [lia | ]);
    change (seq s (S len)) with (s :: seq (S s) len).
  - rewrite Nat.add_0_r in Hret. one_attempt;
      cbn [fst] in Hret; try discriminate Hret.
    injection Hret as ->. view_events. destruct on_retry; repeat split.
  - change (seq s (S m)) with (s :: seq (S s) m). cbn [List.filter].
    pose proof (Hall s ltac:(lia)) as Hs0.
    destruct (captured V E func exceptions timeout s) eqn:Hc;
      unfold captured in Hc; unfold failure in Hs0;
      change (seq s (S (S m))) with (s :: seq (S s) (S m));
      one_attempt; cbn [fst] in Hc, Hs0; try congruence; try lia;
      try (destruct Hs0 as [Hs0 | Hs0]; congruence).
    + destruct (IH (S s) len (Some (Raised e)) (d * backoff)
                  (asleep (now + spent) d)) as (Hres & Hcalls & Hsleeps & Hobs).
      { lia. }
      { lia. }
      { intros j Hj. apply Hall. lia. }
      { replace (S s + m)%nat with (s + S m)%nat by lia. exact Hret. }
      destruct on_retry; rewrite ?events_logged, ?result_logged; view_events;
        rewrite Hres, Hcalls, Hsleeps; cbn [backoff_delays length];
        rewrite ?Hobs; repeat split.
    + destruct (IH (S s) len (Some TimeoutError) d (now + spent))
        as (Hres & Hcalls & Hsleeps & Hobs).
      { lia. }
      { lia. }
      { intros j Hj. apply Hall. lia. }
      { replace (S s + m)%nat with (s + S m)%nat by lia. exact Hret. }
      view_events. rewrite Hres, Hcalls, Hsleeps, Hobs. repeat split.
Qed.

(** An operation whose first [k] attempts fail ([k <= max_retries]),
    each with a captured exception or by timing out, and whose next
    attempt returns: the wrapper returns that value after [k + 1]
    calls.  It has slept once per captured exception, for
    [delay * backoff^j] at the [j]-th of them, and has called a supplied
    observer as often; an attempt that timed out is followed by no sleep
    and no observer call.  When no attempt timed out there are [k] sleeps
    and [k] observer calls. *)
Theorem retry_succeeds_after_failures v (k : nat) start :
  (Z.of_nat k <= max_retries)%Z ->
  (forall j, (j < k)%nat ->
     captured V E func exceptions timeout j = true
     \/ failure V E func timeout j = Some TimeoutError) ->
  fst (await_attempt V E func timeout k) = Returns v ->
  let r := wrapper V E func max_retries delay backoff exceptions timeout
             on_retry start in
  let n := length (List.filter (captured V E func exceptions timeout) (seq 0 k)) in
  result r = Returned v /\
  calls (events r) = seq 0 (S k) /\
  sleeps (events r) = backoff_delays backoff delay n /\
  slept r * (backoff - 1) == delay * (backoff ^ Z.of_nat n - 1) /\
  length (observer_calls (events r)) = (if on_retry then n else 0)%nat /\
  ((forall j, (j < k)%nat -> captured V E func exceptions timeout j = true) ->
   n = k).
Proof.
  intros Hk Hall Hret r n. subst r n. unfold wrapper, slept.
  destruct (retried_then_returned v k 0 (Z.to_nat (max_retries + 1)) None delay start)
    as (Hres & Hcalls & Hsleeps & Hobs);
    [cbn; lia | lia | intros j Hj; apply Hall; lia | exact Hret | ].
  cbn zeta in *. rewrite Hsleeps.
  repeat match goal with |- _ /\ _ => split end;
    try assumption; try reflexivity.
  - apply backoff_delays_sum.
  - intros Hcaptured.
    rewrite forallb_filter_id; [apply length_seq | ].
    apply forallb_forall. intros j Hj. apply in_seq in Hj.
    apply Hcaptured. lia.
Qed.

(** How a run over the last [len] attempts of the range can end. *)
Lemma loop_outcome len : forall s last d now,
  (len <> 0%nat -> Z.of_nat (s + len) = max_retries + 1)%Z ->
  let r := attempts_loop V E func max_retries backoff exceptions timeout on_retry
             (seq s len) last d now in
  match result r with
  | Returned v =>
      exists m, (m < len)%nat /\ calls (events r) = seq s (S m) /\
                fst (await_attempt V E func timeout (s + m)) = Returns v
  | Propagated x =>
      exists m e, (m < len)%nat /\ calls (events r) = seq s (S m) /\
                  x = Raised e /\ exceptions e = false /\
                  fst (await_attempt V E func timeout (s + m)) = Raises (Raised e)
  | RetryError x =>
      calls (events r) = seq s len /\
      match len with
      | O => last = Some x
      | S len' => failure V E func timeout (s + len') = Some x
      end
  | ReturnedNone => len = 0%nat /\ last = None
  end.
Proof.
  induction len as [ | len IH]; intros s last d now Hend r; subst r.
  - cbn. destruct last; cbn; auto.
  - change (seq s (S len)) with (s :: seq (S s) len).
    specialize (Hend ltac:(discriminate)).
    one_attempt.
    + exists 0%nat. rewrite Nat.add_0_r. split; [lia | split; [reflexivity | ]].
      rewrite Hawait. reflexivity.
    + specialize (IH (S s) (Some TimeoutError) d (now + spent) ltac:(lia)).
      cbn zeta in IH. view_events.
      destruct (result _) as [v' | | x | x].
      * destruct IH as (m & Hm & Hcalls & Hret). exists (S m).
        rewrite Hcalls. replace (s + S m)%nat with (S s + m)%nat by lia.
        split; [lia | split; [reflexivity | exact Hret]].
      * destruct IH as [_ IH]. discriminate IH.
      * destruct IH as (m & e & Hm & Hcalls & Hx & He & Hraise). exists (S m), e.
        rewrite Hcalls. replace (s + S m)%nat with (S s + m)%nat by lia.
        split; [lia | split; [reflexivity | auto]].
      * destruct IH as [Hcalls Hcause]. rewrite Hcalls. split; [reflexivity | ].
        destruct len as [ | len'].
        -- injection Hcause as <-. unfold failure. rewrite Nat.add_0_r, Hawait.
           reflexivity.
        -- replace (s + S len')%nat with (S s + len')%nat by lia. exact Hcause.
    + specialize (IH (S s) (Some (Raised e)) (d * backoff)
                    (asleep (now + spent) d) ltac:(lia)).
      cbn zeta in IH.
      assert (Hlen : len <> 0%nat) by lia.
      destruct on_retry; rewrite ?events_logged, ?result_logged; view_events;
        (destruct (result _) as [v' | | x | x];
         [ destruct IH as (m & Hm & Hcalls & Hret); exists (S m);
           rewrite Hcalls; replace (s + S m)%nat with (S s + m)%nat by lia;
           split; [lia | split; [reflexivity | exact Hret]]
         | destruct IH as [IH _]; contradiction
         | destruct IH as (m & e' & Hm & Hcalls & Hx & He & Hraise);
           exists (S m), e'; rewrite Hcalls;
           replace (s + S m)%nat with (S s + m)%nat by lia;
           split; [lia | split; [reflexivity | auto]]
         | destruct IH as [Hcalls Hcause]; rewrite Hcalls;
           split; [reflexivity | ];
           destruct len as [ | len']; [contradiction | ];
           replace (s + S len')%nat with (S s + len')%nat by lia; exact Hcause ]).
    + assert (len = 0%nat) by lia. subst len. view_events.
      split; [reflexivity | ]. unfold failure. rewrite Nat.add_0_r, Hawait.
      reflexivity.
    + exists 0%nat, e. rewrite Nat.add_0_r. rewrite Hawait.
      split; [lia | split; [reflexivity | auto]].
Qed.

(** [RetryError] is raised only after all [max_retries + 1] attempts, and
    its cause is the exception of the last attempt. *)
Theorem retry_error_only_when_exhausted start x :
  result (wrapper V E func max_retries delay backoff exceptions timeout
            on_retry start) = RetryError x ->
  (0 <= max_retries)%Z /\
  calls (events (wrapper V E func max_retries delay backoff exceptions timeout
                   on_retry start))
  = seq 0 (Z.to_nat (max_retries + 1)) /\
  failure V E func timeout (Z.to_nat max_retries) = Some x.
Proof.
  intros Hres. unfold wrapper in *.
  pose proof (loop_outcome (Z.to_nat (max_retries + 1)) 0 None delay start) as H.
  cbn zeta in H. rewrite Hres in H.
  destruct (Z.to_nat (max_retries + 1)) as [ | len'] eqn:Hlen.
  - destruct H as [_ H]; [intros Hne; contradiction | discriminate H].
  - destruct H as [Hcalls Hcause]; [intros _; lia | ].
    assert (len' = Z.to_nat max_retries) by lia. subst len'.
    split; [lia | split; assumption].
Qed.

(** A value the wrapper returns is the value of the last call it made; an
    exception it lets through was raised by the last call it made and is
    not one of [exceptions]: such an exception is never retried. *)
Theorem retry_returns_last_call start :
  let r := wrapper V E func max_retries delay backoff exceptions timeout
             on_retry start in
  (forall v, result r = Returned v ->
     exists k, calls (events r) = seq 0 (S k) /\
               fst (await_attempt V E func timeout k) = Returns v) /\
  (forall x, result r = Propagated x ->
     exists k e, calls (events r) = seq 0 (S k) /\ x = Raised e /\
                 exceptions e = false /\
                 fst (await_attempt V E func timeout k) = Raises (Raised e)).
Proof.
  cbn zeta. unfold wrapper.
  pose proof (loop_outcome (Z.to_nat (max_retries + 1)) 0 None delay start) as H.
  cbn zeta in H. split.
  - intros v Hres. rewrite Hres in H.
    destruct H as (m & _ & Hcalls & Hret); [lia | ]. eauto.
  - intros x Hres. rewrite Hres in H.
    destruct H as (m & e & _ & Hcalls & Hx & He & Hraise); [lia | ].
    exists m, e. auto.
Qed.

(** With a negative [max_retries] the wrapper never calls the operation
    and returns [None]; that is the only way it returns [None] by
    itself. *)
Theorem retry_negative_budget_returns_none start :
  let r := wrapper V E func max_retries delay backoff exceptions timeout
             on_retry start in
  (result r = ReturnedNone <-> (max_retries < 0)%Z) /\
  ((max_retries < 0)%Z -> log r = [] /\ finished r = start).
Proof.
  cbn zeta. unfold wrapper.
  pose proof (loop_outcome (Z.to_nat (max_retries + 1)) 0 None delay start) as H.
  cbn zeta in H. split; [split | ].
  - intros Hres. rewrite Hres in H. destruct H as [H _]; lia.
  - intros Hneg. replace (Z.to_nat (max_retries + 1)) with 0%nat by lia.
    reflexivity.
  - intros Hneg. replace (Z.to_nat (max_retries + 1)) with 0%nat by lia.
    split; reflexivity.
Qed.

(** The sleeps of any run follow the backoff schedule, and there is one
    observer call per sleep. *)
Lemma loop_sleeps attempts : forall last d now,
  let r := attempts_loop V E func max_retries backoff exceptions timeout on_retry
             attempts last d now in
  sleeps (events r) = backoff_delays backoff d (length (sleeps (events r))) /\
  length (observer_calls (events r))
  = (if on_retry then length (sleeps (events r)) else 0)%nat.
Proof.
  induction attempts as [ | k rest IH]; intros last d now r; subst r.
  - destruct last; cbn; destruct on_retry; auto.
  - one_attempt; view_events.
    + destruct on_retry; auto.
    + apply IH.
    + destruct (IH (Some (Raised e)) (d * backoff) (asleep (now + spent) d))
        as [Hs Ho].
      destruct on_retry; rewrite ?events_logged; view_events;
        cbn [length backoff_delays]; rewrite <- Hs, ?Ho; auto.
    + destruct on_retry; auto.
    + destruct on_retry; auto.
Qed.

Lemma loop_sleeps_count len : forall s last d now,
  (length (sleeps (events (attempts_loop V E func max_retries backoff exceptions
                             timeout on_retry (seq s len) last d now)))
   <= Z.to_nat max_retries - s)%nat.
Proof.
  induction len as [ | len IH]; intros s last d now.
  - destruct last; cbn; lia.
  - change (seq s (S len)) with (s :: seq (S s) len). one_attempt; view_events;
      cbn [length];
      try (change (sleeps (@nil (event E))) with (@nil Q); cbn [length]; lia).
    + specialize (IH (S s) (Some TimeoutError) d (now + spent)). lia.
    + specialize (IH (S s) (Some (Raised e)) (d * backoff)
                    (asleep (now + spent) d)).
      match goal with H : (_ <? _)%Z = true |- _ => apply Z.ltb_lt in H end.
      destruct on_retry; rewrite ?events_logged; view_events; cbn [length]; lia.
Qed.

(** In every run, whatever the operation does, the [j]-th sleep lasts
    [delay * backoff^j], there are at most [max_retries] sleeps, and a
    supplied observer is called once per sleep. *)
Theorem retry_sleeps_follow_backoff start :
  let r := wrapper V E func max_retries delay backoff exceptions timeout
             on_retry start in
  sleeps (events r) = backoff_delays backoff delay (length (sleeps (events r))) /\
  (length (sleeps (events r)) <= Z.to_nat max_retries)%nat /\
  slept r * (backoff - 1)
  == delay * (backoff ^ Z.of_nat (length (sleeps (events r))) - 1) /\
  length (observer_calls (events r))
  = (if on_retry then length (sleeps (events r)) else 0)%nat.
Proof.
  cbn zeta. unfold wrapper, slept.
  destruct (loop_sleeps (seq 0 (Z.to_nat (max_retries + 1))) None delay start)
    as [Hs Ho].
  pose proof (loop_sleeps_count (Z.to_nat (max_retries + 1)) 0 None delay start)
    as Hn.
  cbn zeta in *.
  split; [exact Hs | split; [lia | split; [ | exact Ho]]].
  rewrite Hs at 1. apply backoff_delays_sum.
Qed.

Lemma backoff_delays_nonneg n : forall d,
  0 <= d -> 0 <= backoff -> 0 <= Qsum (backoff_delays backoff d n).
Proof.
  induction n as [ | n IH]; intros d Hd Hb.
  - apply Qle_refl.
  - cbn [backoff_delays]. rewrite Qsum_cons.
    specialize (IH (d * backoff) ltac:(apply Qmult_le_0_compat; assumption) Hb).
    lra.
Qed.

Lemma backoff_delays_prefix_sum j : forall n d,
  (j <= n)%nat -> 0 <= d -> 0 <= backoff ->
  Qsum (map (Qmax 0) (backoff_delays backoff d j))
  <= Qsum (backoff_delays backoff d n).
Proof.
  induction j as [ | j IH]; intros n d Hjn Hd Hb.
  - apply backoff_delays_nonneg; assumption.
  - destruct n as [ | n]; [lia | ].
    cbn [backoff_delays map]. rewrite !Qsum_cons.
    specialize (IH n (d * backoff) ltac:(lia)
                  ltac:(apply Qmult_le_0_compat; assumption) Hb).
    rewrite (Q.max_r 0 d) by exact Hd. lra.
Qed.

(** Worst case of a wrapped call whose operation awaits while it
    works: with a timeout [t >= 0] and non-negative [delay] and
    [backoff], the run ends within [(max_retries + 1) * t] plus the full
    backoff schedule.  The bound needs the operation to await: one that
    never awaits is not interrupted by the timeout, and when it returns,
    the wrapper returns its value after all the time it took. *)
Theorem retry_worst_case_duration start t :
  timeout = Some t -> 0 <= t -> 0 <= delay -> 0 <= backoff ->
  (0 <= max_retries)%Z ->
  let r := wrapper V E func max_retries delay backoff exceptions timeout
             on_retry start in
  ((forall k, suspends (func k) = true) ->
   (length (calls (events r)) <= Z.to_nat (max_retries + 1))%nat /\
   finished r <= start + inject_Z (max_retries + 1) * t
                 + Qsum (backoff_delays backoff delay (Z.to_nat max_retries))) /\
  (forall v, 0 < t -> suspends (func 0%nat) = false ->
     ends (func 0%nat) = Returns v ->
     result r = Returned v /\ finished r == start + needs (func 0%nat)).
Proof.
  intros Ht Ht0 Hd Hb Hn r. subst r. unfold wrapper. split.
  - intros Hyield.
    set (attempts := seq 0 (Z.to_nat (max_retries + 1))).
    pose proof (finished_within_attempt_budgets func max_retries backoff exceptions
                  timeout on_retry t attempts None delay start Ht Ht0
                  (fun k _ => Hyield k)) as Hbudget.
    destruct (calls_prefix func max_retries backoff exceptions timeout on_retry
                attempts None delay start) as [rest Hrest].
    destruct (loop_sleeps attempts None delay start) as [Hs _].
    pose proof (loop_sleeps_count (Z.to_nat (max_retries + 1)) 0 None delay start)
      as Hcount.
    fold attempts in Hcount. cbn zeta in *.
    set (r := attempts_loop V E func max_retries backoff exceptions timeout on_retry
                attempts None delay start) in *.
    assert (Hcalls : (length (calls (events r)) <= Z.to_nat (max_retries + 1))%nat).
    { apply (f_equal (@length nat)) in Hrest. unfold attempts in Hrest.
      rewrite length_seq, length_app in Hrest. lia. }
    split; [exact Hcalls | ].
    assert (Hsum : Qsum (map (Qmax 0) (sleeps (events r)))
                   <= Qsum (backoff_delays backoff delay (Z.to_nat max_retries))).
    { rewrite Hs. apply backoff_delays_prefix_sum; [lia | assumption | assumption]. }
    assert (Hattempts : inject_Z (Z.of_nat (length (calls (events r)))) * t
                        <= inject_Z (max_retries + 1) * t).
    { apply Qmult_le_compat_r; [ | exact Ht0].
      rewrite <- Zle_Qle. lia. }
    lra.
  - intros v Hpos Hblocks Hends.
    replace (Z.to_nat (max_retries + 1)) with (S (Z.to_nat max_retries)) by lia.
    cbn [seq attempts_loop].
    rewrite (await_blocking func timeout t 0%nat Ht Hpos Hblocks), Hends.
    rewrite result_logged, finished_logged. split; reflexivity.
Qed.

End RetryOutcomes.

Lemma retry_succeeds_after_failures_witness :
  let r := Retry.wrapper string string Scenarios.unsteady 3 1 2 Retry.any_exception
             (Some 300) true 0 in
  (Z.of_nat 2 <= 3)%Z /\
  Retry.failure string string Scenarios.unsteady (Some 300) 0
  = Some Retry.TimeoutError /\
  Retry.captured string string Scenarios.unsteady Retry.any_exception (Some 300) 1
  = true /\
  Retry.result r = Retry.Returned "transcript" /\
  Retry.calls (Retry.events r) = [0; 1; 2]%nat /\
  Retry.sleeps (Retry.events r) = [1] /\
  length (Retry.observer_calls (Retry.events r)) = 1%nat.
Proof.
  intros r. split; [lia | split; [reflexivity | split; [reflexivity | ]]].
  destruct (retry_succeeds_after_failures Scenarios.unsteady 3 1 2
              Retry.any_exception (Some 300) true "transcript" 2 0)
    as (H1 & H2 & H3 & _ & H5 & _).
  - lia.
  - intros j Hj. destruct j as [ | [ | j]]; [right | left | lia]; reflexivity.
  - reflexivity.
  - repeat split; assumption.
Defined.

Lemma retry_error_only_when_exhausted_witness :
  let r := Retry.wrapper unit string Retry.refused 3 1 2 Retry.any_exception
             (Some 300) true 0 in
  Retry.result r = Retry.RetryError (Retry.Raised "API Error") /\
  Retry.calls (Retry.events r) = seq 0 (Z.to_nat (3 + 1)).
Proof.
  intros r. split; [reflexivity | ].
  destruct (retry_error_only_when_exhausted Retry.refused 3 1 2 Retry.any_exception
              (Some 300) true 0 (Retry.Raised "API Error")) as (_ & H & _);
    [reflexivity | exact H].
Defined.

Lemma retry_worst_case_duration_witness :
  let r := Retry.wrapper unit string Retry.stuck 3 1 2 Retry.any_exception
             (Some 300) true 0 in
  let r' := Retry.wrapper unit string Retry.blocking 3 1 2 Retry.any_exception
              (Some 300) true 0 in
  (Some 300 = Some 300 /\ 0 <= 300 /\ 0 <= 1 /\ 0 <= 2 /\ (0 <= 3)%Z) /\
  Retry.finished r
  <= 0 + inject_Z (3 + 1) * 300 + Retry.Qsum (Retry.backoff_delays 2 1 (Z.to_nat 3)) /\
  Retry.result r' = Retry.Returned tt /\
  Retry.finished r' == 0 + 301.
Proof.
  intros r r'.
  assert (H300 : 0 <= 300) by (vm_compute; discriminate).
  assert (H1 : 0 <= 1) by (vm_compute; discriminate).
  assert (H2 : 0 <= 2) by (vm_compute; discriminate).
  split; [repeat (split; [first [reflexivity | assumption | lia] | ]); lia | ].
  destruct (retry_worst_case_duration Retry.stuck 3 1 2 Retry.any_exception
              (Some 300) true 0 300 eq_refl H300 H1 H2 ltac:(lia)) as (Hwait & _).
  destruct (retry_worst_case_duration Retry.blocking 3 1 2 Retry.any_exception
              (Some 300) true 0 300 eq_refl H300 H1 H2 ltac:(lia)) as (_ & Hblock).
  destruct (Hwait (fun _ => eq_refl)) as (_ & Hbound).
  destruct (Hblock tt ltac:(reflexivity) eq_refl eq_refl) as (Hres & Hfin).
  split; [exact Hbound | split; [exact Hres | exact Hfin]].
Defined.

(** ** Deadlines of [TimeoutContext] *)

Section TimeoutContextFacts.

Import Retry.

(** The remaining time is never negative, never more than the timeout
    once the context exists, and never grows as the clock advances. *)
Theorem remaining_shrinks (self : TimeoutContext) (now later : Q) :
  0 <= remaining self now /\
  (start_time self <= now -> remaining self now <= Qmax 0 (Retry.timeout self)) /\
  (now <= later -> remaining self later <= remaining self now).
Proof.
  destruct (remaining_spec self now) as [[H1 H2] | [H1 H2]];
    destruct (remaining_spec self later) as [[H3 H4] | [H3 H4]];
    destruct (Q.max_spec 0 (Retry.timeout self)) as [[H5 H6] | [H5 H6]];
    rewrite H2, H4, H6; repeat split; intros; lra.
Qed.

(** A sleep that [TimeoutContext.sleep] accepts uses up exactly its
    duration of the remaining time; sleeping for all the remaining time
    is accepted, and [check] raises right after it. *)
Theorem sleep_uses_remaining (self : TimeoutContext) (now : Q) :
  (forall d now', sleep self d now = inr now' ->
     remaining self now' == remaining self now - Qmax 0 d) /\
  (exists now', sleep self (remaining self now) now = inr now' /\
                check self now' = Some tt).
Proof.
  split.
  - intros d now' Hsleep. apply sleep_returns in Hsleep as (Hle & Hnow' & _).
    destruct (Q.max_spec 0 d) as [[H1 H2] | [H1 H2]]; rewrite H2 in *;
      destruct (remaining_spec self now) as [[H3 H4] | [H3 H4]];
      destruct (remaining_spec self now') as [[H5 H6] | [H5 H6]];
      rewrite H4, H6; lra.
  - unfold sleep.
    assert (Hle : Qle_bool (remaining self now) (remaining self now) = true)
      by (apply Qle_bool_iff; apply Qle_refl).
    rewrite Hle. cbn [negb]. eexists. split; [reflexivity | ].
    apply check_raises_iff.
    destruct (Q.max_spec 0 (remaining self now)) as [[H1 H2] | [H1 H2]];
      rewrite H2;
      destruct (remaining_spec self now) as [[H3 H4] | [H3 H4]]; lra.
Qed.

End TimeoutContextFacts.

(** ** Summaries of the metrics directory *)

Section SummaryMore.

Import Metrics.

Variable strftime : Z -> string.

Lemma read_files_skip_unreadable files : forall acc,
  fold_left read_file files acc
  = fold_left read_file (List.filter readable files) acc.
Proof.
  induction files as [ | file files IH]; intros acc; [reflexivity | ].
  cbn [fold_left List.filter].
  destruct (snd file) as [metrics | ] eqn:Hfile.
  - assert (Hread : readable file = true) by (unfold readable; rewrite Hfile; reflexivity).
    rewrite Hread. cbn [fold_left]. apply IH.
  - assert (Hread : readable file = false) by (unfold readable; rewrite Hfile; reflexivity).
    assert (Hskip : read_file acc file = acc) by (unfold read_file; rewrite Hfile; reflexivity).
    rewrite Hread, Hskip. apply IH.
Qed.

(** Files that do not parse change nothing in a summary: it is the
    summary of the files that parse. *)
Theorem summary_skips_unreadable_files
    (files : list (string * option Stored.record)) :
  summarize files = summarize (List.filter readable files).
Proof. unfold summarize. rewrite read_files_skip_unreadable. reflexivity. Qed.

Lemma filter_length_le {A : Type} (f g : A -> bool) (l : list A) :
  (forall x, f x = true -> g x = true) ->
  (length (List.filter f l) <= length (List.filter g l))%nat.
Proof.
  intros Hfg. induction l as [ | x l IH]; [cbn; lia | ].
  cbn [List.filter]. destruct (f x) eqn:Hf.
  - rewrite (Hfg x Hf). cbn [length]. lia.
  - destruct (g x); cbn [length]; lia.
Qed.

(** The success rate of every summary lies between 0 and 1, and a
    summary over no readable file is all zeros: there is no division by
    zero. *)
Theorem summary_rates_are_bounded (metrics_dir : directory)
    (filter_by : option string) :
  let s := get_metrics_summary metrics_dir filter_by in
  0 <= success_rate s /\ success_rate s <= 1 /\
  (0 <= total_operations s)%Z /\
  (total_operations s = 0%Z ->
   success_rate s = 0 /\ average_duration s = 0 /\ average_retries s = 0).
Proof.
  cbn zeta. unfold get_metrics_summary, summarize.
  set (files := metrics_files metrics_dir filter_by).
  destruct (read_files_totals files no_counts) as (H1 & H2 & _).
  cbn zeta in *.
  cbn [total_operations success_rate average_duration average_retries].
  rewrite H1, H2.
  change (Running.total_operations no_counts) with 0%Z.
  change (Running.successful_operations no_counts) with 0%Z.
  rewrite !Z.add_0_l.
  pose proof (filter_length_le succeeded readable files) as Hle.
  assert (Hsub : forall x, succeeded x = true -> readable x = true).
  { intros x. unfold succeeded, readable. destruct (snd x); [reflexivity | discriminate]. }
  specialize (Hle Hsub).
  set (good := length (List.filter succeeded files)) in *.
  set (all := length (List.filter readable files)) in *.
  destruct (Z.of_nat all >? 0)%Z eqn:Hpos.
  - assert (Hall : 0 < inject_Z (Z.of_nat all)).
    { change 0 with (inject_Z 0). rewrite <- Zlt_Qlt. lia. }
    split; [ | split; [ | split; [lia | lia]]].
    + apply Qle_shift_div_l; [exact Hall | ]. rewrite Qmult_0_l.
      change 0 with (inject_Z 0). rewrite <- Zle_Qle. lia.
    + apply Qle_shift_div_r; [exact Hall | ]. rewrite Qmult_1_l.
      rewrite <- Zle_Qle. lia.
  - split; [apply Qle_refl | split; [discriminate | split; [lia | auto]]].
Qed.

Lemma filter_length_permutation {A : Type} (f : A -> bool) (l l' : list A) :
  Permutation l l' -> length (List.filter f l) = length (List.filter f l').
Proof.
  induction 1 as [ | x l l' _ IH | x y l | l l' l'' _ IH1 _ IH2].
  - reflexivity.
  - cbn [List.filter]. destruct (f x); cbn [length]; congruence.
  - cbn [List.filter]. destruct (f x), (f y); reflexivity.
  - congruence.
Qed.

Lemma unfiltered_total (metrics_dir : directory) :
  total_operations (get_metrics_summary metrics_dir None)
  = Z.of_nat (length (List.filter readable
                        (List.filter (fun file => is_json (fst file))
                           (map_to_list metrics_dir)))).
Proof.
  unfold get_metrics_summary, summarize.
  destruct (read_files_totals (metrics_files metrics_dir None) no_counts)
    as (H1 & _).
  cbn zeta in H1. cbn [total_operations]. rewrite H1. reflexivity.
Qed.

(** Saving a record under a file name that is not taken adds one
    operation to the summary of the directory; saving under the name of
    a readable record replaces that record and leaves the count as it
    was. *)
Theorem save_then_summarize (metrics_dir : directory) (metrics : QualityMetrics)
    (now : Q) :
  let saved := save_metrics strftime metrics_dir metrics now in
  let before := total_operations (get_metrics_summary metrics_dir None) in
  let after := total_operations (get_metrics_summary saved None) in
  (metrics_dir !! filename strftime metrics now = None -> after = (before + 1)%Z) /\
  (forall old, metrics_dir !! filename strftime metrics now = Some (Some old) ->
     after = before).
Proof.
  cbn zeta. rewrite !unfiltered_total. unfold save_metrics.
  set (name := filename strftime metrics now).
  set (new := Some (to_dict (finalized metrics now))).
  assert (Hjson : is_json name = true).
  { apply (saved_file_matches_prefix strftime "" metrics now).
    destruct (operation metrics); reflexivity. }
  assert (Hfresh : forall m : directory, m !! name = None ->
            length (List.filter readable
                      (List.filter (fun file => is_json (fst file))
                         (map_to_list (<[name := new]> m))))
            = S (length (List.filter readable
                           (List.filter (fun file => is_json (fst file))
                              (map_to_list m))))).
  { intros m Hm.
    rewrite (filter_length_permutation readable _
               (List.filter (fun file => is_json (fst file))
                  ((name, new) :: map_to_list m))).
    - cbn [List.filter fst]. rewrite Hjson. reflexivity.
    - clear -Hm. pose proof (map_to_list_insert m name new Hm) as Hperm.
      induction Hperm as [ | x l l' _ IH | x y l | l l' l'' _ IH1 _ IH2].
      + constructor.
      + cbn [List.filter]. destruct (is_json (fst x)); [constructor | ]; exact IH.
      + cbn [List.filter]. destruct (is_json (fst x)), (is_json (fst y));
          try reflexivity. apply perm_swap.
      + etransitivity; eassumption. }
  split.
  - intros Hnone. rewrite (Hfresh metrics_dir Hnone). lia.
  - intros old Hold.
    rewrite <- (insert_delete_eq metrics_dir name new).
    rewrite (Hfresh (delete name metrics_dir)) by apply lookup_delete_eq.
    rewrite <- (insert_delete_id metrics_dir name (Some old) Hold) at 2.
    set (new' := Some old).
    assert (Hold' : length (List.filter readable
                      (List.filter (fun file => is_json (fst file))
                         (map_to_list (<[name := new']> (delete name metrics_dir)))))
            = S (length (List.filter readable
                           (List.filter (fun file => is_json (fst file))
                              (map_to_list (delete name metrics_dir)))))).
    { pose proof (map_to_list_insert (delete name metrics_dir) name new'
                    (lookup_delete_eq metrics_dir name)) as Hperm.
      rewrite (filter_length_permutation readable _
                 (List.filter (fun file => is_json (fst file))
                    ((name, new') :: map_to_list (delete name metrics_dir)))).
      - cbn [List.filter fst]. rewrite Hjson. reflexivity.
      - clear -Hperm.
        induction Hperm as [ | x l l' _ IH | x y l | l l' l'' _ IH1 _ IH2].
        + constructor.
        + cbn [List.filter]. destruct (is_json (fst x)); [constructor | ]; exact IH.
        + cbn [List.filter]. destruct (is_json (fst x)), (is_json (fst y));
            try reflexivity. apply perm_swap.
        + etransitivity; eassumption. }
    rewrite Hold'. reflexivity.
Qed.

End SummaryMore.

(** ** Structure of the chunks of a transcript *)

Section ChunkStructure.

Import Analysis AnalysisFlow.

Variable encode : string -> list Z.
Variable max_tokens : Z.

Lemma group_tokens_app (g1 g2 : list string) :
  group_tokens encode (g1 ++ g2)
  = (group_tokens encode g1 + group_tokens encode g2)%Z.
Proof.
  induction g1 as [ | x g1 IH]; [reflexivity | ].
  rewrite <- app_comm_cons.
  change (group_tokens encode (x :: g1 ++ g2))
    with (Z.of_nat (length (encode x)) + group_tokens encode (g1 ++ g2))%Z.
  change (group_tokens encode (x :: g1))
    with (Z.of_nat (length (encode x)) + group_tokens encode g1)%Z.
  rewrite IH. lia.
Qed.

Lemma group_tokens_nonneg (g : list string) : (0 <= group_tokens encode g)%Z.
Proof.
  induction g as [ | x g IH]; [cbn; lia | ].
  change (group_tokens encode (x :: g))
    with (Z.of_nat (length (encode x)) + group_tokens encode g)%Z.
  lia.
Qed.

Lemma group_tokens_one (x : string) :
  group_tokens encode [x] = Z.of_nat (length (encode x)).
Proof. cbn. lia. Qed.

Lemma add_sentence_keeps_invariant (st : chunker) seen sentence :
  chunker_invariant encode max_tokens st seen ->
  chunker_invariant encode max_tokens (add_sentence encode max_tokens st sentence)
    (seen ++ [sentence]).
Proof.
  intros (groups & Hchunks & Hseen & Hne & Hbudget & Htokens & Hopen).
  unfold add_sentence.
  destruct (current_tokens st + Z.of_nat (length (encode sentence)) >? max_tokens)%Z
    eqn:Hover; [destruct (current_chunk st) as [ | x l] eqn:Hcur | ].
  - exists groups. cbn [chunks current_chunk current_tokens]. rewrite Hcur.
    rewrite app_nil_r in Hseen. subst seen.
    repeat split; try assumption.
    + rewrite Htokens. cbn. lia.
    + left. cbn. lia.
  - exists (groups ++ [x :: l]). cbn [chunks current_chunk current_tokens].
    unfold close_chunk. rewrite Hcur, Hchunks, map_app.
    repeat split.
    + rewrite List.concat_app. cbn [concat app]. rewrite app_nil_r, <- Hseen.
      rewrite <- app_assoc. reflexivity.
    + apply Forall_app. split; [exact Hne | ]. repeat constructor. discriminate.
    + apply Forall_app. split; [exact Hbudget | ]. constructor; [ | constructor].
      destruct Hopen as [Hone | Hfit]; [left | right; exact Hfit].
      cbn [length] in *. lia.
    + cbn. lia.
    + left. cbn. lia.
  - exists groups. cbn [chunks current_chunk current_tokens].
    repeat split; try assumption.
    + rewrite app_assoc, Hseen. reflexivity.
    + rewrite group_tokens_app, group_tokens_one, Htokens. reflexivity.
    + right. rewrite group_tokens_app, group_tokens_one, <- Htokens. lia.
Qed.

Lemma fold_keeps_invariant sentences : forall (st : chunker) seen,
  chunker_invariant encode max_tokens st seen ->
  chunker_invariant encode max_tokens
    (fold_left (add_sentence encode max_tokens) sentences st) (seen ++ sentences).
Proof.
  induction sentences as [ | x l IH]; intros st seen Hinv.
  - rewrite app_nil_r. exact Hinv.
  - cbn [fold_left]. replace (seen ++ x :: l) with ((seen ++ [x]) ++ l)
      by (rewrite <- app_assoc; reflexivity).
    apply IH. apply add_sentence_keeps_invariant. exact Hinv.
Qed.

Lemma chunk_groups (transcript : string) :
  exists groups,
    _chunk_transcript encode max_tokens transcript
    = map (fun g => join g +:+ ".") groups /\
    concat groups = split transcript /\
    Forall (fun g => g <> []) groups /\
    Forall (fun g => length g = 1%nat
                     \/ (group_tokens encode g <= max_tokens)%Z) groups.
Proof.
  unfold _chunk_transcript.
  assert (Hstart : chunker_invariant encode max_tokens start []).
  { exists []. cbn. repeat split; auto. }
  apply (fold_keeps_invariant (split transcript)) in Hstart.
  cbn [app] in Hstart.
  destruct Hstart as (groups & Hchunks & Hseen & Hne & Hbudget & _ & Hopen).
  unfold close_chunk.
  destruct (current_chunk _) as [ | x l] eqn:Hcur.
  - exists groups. rewrite app_nil_r in Hseen. auto.
  - exists (groups ++ [x :: l]). rewrite Hchunks, map_app.
    repeat split.
    + rewrite List.concat_app. cbn [concat app]. rewrite app_nil_r. exact Hseen.
    + apply Forall_app. split; [exact Hne | ]. repeat constructor. discriminate.
    + apply Forall_app. split; [exact Hbudget | ]. constructor; [ | constructor].
      destruct Hopen as [Hone | Hfit]; [left | right; exact Hfit].
      cbn [length] in *. lia.
Qed.

Lemma join_cons_cons x y (l : list string) :
  join (x :: y :: l) = x +:+ ". " +:+ join (y :: l).
Proof. reflexivity. Qed.

Lemma join_app (l1 l2 : list string) :
  l1 <> [] -> l2 <> [] -> join (l1 ++ l2) = join l1 +:+ ". " +:+ join l2.
Proof. apply concat_app. Qed.

Lemma join_groups (groups : list (list string)) :
  Forall (fun g => g <> []) groups ->
  join (map join groups) = join (concat groups).
Proof.
  induction groups as [ | g groups IH]; intros Hne; [reflexivity | ].
  apply Forall_cons_iff in Hne as [Hg Hne]. specialize (IH Hne).
  destruct groups as [ | g' groups].
  - cbn [map concat]. rewrite app_nil_r. reflexivity.
  - change (map join (g :: g' :: groups))
      with (join g :: join g' :: map join groups).
    rewrite join_cons_cons.
    change (join g' :: map join groups) with (map join (g' :: groups)).
    rewrite IH.
    change (concat (g :: g' :: groups)) with (g ++ concat (g' :: groups)).
    rewrite join_app; [reflexivity | exact Hg | ].
    apply Forall_cons_iff in Hne as [Hg' _].
    cbn [concat]. destruct g'; [congruence | discriminate].
Qed.

(** Every chunk is a run of whole, consecutive sentences of the
    transcript, joined as they were and closed by a period; the runs
    follow each other in the order of the transcript and leave no
    sentence out, so the chunks without their added periods join to the
    transcript.  The budget is kept on the sentences as the code counts
    them: in a chunk of several sentences, the token counts of the
    sentences, each encoded on its own, sum to at most [max_tokens].
    Separators and the closing period are not counted, so the encoded
    chunk itself can be longer than the budget. *)
Theorem chunks_are_runs_of_sentences (transcript : string) :
  exists groups,
    _chunk_transcript encode max_tokens transcript
    = map (fun g => join g +:+ ".") groups /\
    concat groups = split transcript /\
    join (map join groups) = transcript /\
    Forall (fun g => g <> []) groups /\
    Forall (fun g => length g = 1%nat
                     \/ (group_tokens encode g <= max_tokens)%Z) groups.
Proof.
  destruct (chunk_groups transcript) as (groups & Hchunks & Hconcat & Hne & Hfit).
  exists groups. repeat split; try assumption.
  rewrite join_groups by exact Hne. rewrite Hconcat. apply join_split.
Qed.


(** There is at least one chunk and never more chunks than sentences. *)
Theorem chunk_count_is_bounded (transcript : string) :
  (1 <= length (_chunk_transcript encode max_tokens transcript)
   <= length (split transcript))%nat.
Proof.
  destruct (chunk_groups transcript) as (groups & -> & Hconcat & Hne & _).
  rewrite length_map, <- Hconcat.
  destruct (split_cons transcript) as (piece & more & Hsplit).
  split.
  - destruct groups; [rewrite Hsplit in Hconcat; discriminate Hconcat | cbn; lia].
  - clear -Hne. induction Hne as [ | g groups Hg _ IH]; [cbn; lia | ].
    cbn [concat length]. rewrite length_app.
    destruct g; [congruence | cbn [length]; lia].
Qed.

Lemma fold_within_budget sentences : forall st : chunker,
  chunks st = [] ->
  current_tokens st = group_tokens encode (current_chunk st) ->
  (group_tokens encode (current_chunk st ++ sentences) <= max_tokens)%Z ->
  let st' := fold_left (add_sentence encode max_tokens) sentences st in
  chunks st' = [] /\ current_chunk st' = current_chunk st ++ sentences.
Proof.
  induction sentences as [ | x l IH]; intros st Hchunks Htokens Hfit.
  - cbn. rewrite app_nil_r. auto.
  - cbn [fold_left]. cbn zeta in *.
    rewrite group_tokens_app in Hfit.
    change (group_tokens encode (x :: l))
      with (Z.of_nat (length (encode x)) + group_tokens encode l)%Z in Hfit.
    pose proof (group_tokens_nonneg l) as Hl.
    assert (Hstep : add_sentence encode max_tokens st x
                    = {| chunks := chunks st;
                         current_chunk := current_chunk st ++ [x];
                         current_tokens :=
                           (current_tokens st + Z.of_nat (length (encode x)))%Z |}).
    { unfold add_sentence.
      destruct (_ >? _)%Z eqn:Hover; [ | reflexivity]. lia. }
    rewrite Hstep.
    destruct (IH {| chunks := chunks st;
                    current_chunk := current_chunk st ++ [x];
                    current_tokens :=
                      (current_tokens st + Z.of_nat (length (encode x)))%Z |})
      as [H1 H2]; cbn [chunks current_chunk current_tokens].
    + exact Hchunks.
    + rewrite group_tokens_app, group_tokens_one, Htokens. reflexivity.
    + rewrite !group_tokens_app, group_tokens_one. lia.
    + cbn [chunks current_chunk] in H1, H2. rewrite H1, H2, <- app_assoc. auto.
Qed.

(** A transcript whose sentences fit the budget together comes back as
    one chunk: the transcript with a period added. *)
Theorem transcript_within_budget_is_one_chunk (transcript : string) :
  (group_tokens encode (split transcript) <= max_tokens)%Z ->
  _chunk_transcript encode max_tokens transcript = [transcript +:+ "."].
Proof.
  intros Hfit. unfold _chunk_transcript.
  destruct (fold_within_budget (split transcript) start) as [Hchunks Hcur];
    [reflexivity | reflexivity | exact Hfit | ].
  cbn zeta in *. unfold close_chunk. rewrite Hchunks, Hcur.
  change (current_chunk start ++ split transcript) with (split transcript).
  destruct (split_cons transcript) as (piece & more & Hsplit).
  pose proof (join_split transcript) as Hjoin.
  rewrite Hsplit in *. rewrite Hjoin. reflexivity.
Qed.

End ChunkStructure.

(** With one token per character and a budget of 6, the sentences
    [aaa] and [bbb] count 6 tokens and share a chunk, which has 9
    characters once joined and closed. *)
Lemma joined_chunk_exceeds_budget :
  Analysis._chunk_transcript AnalysisFlow.letters 6 "aaa. bbb. ccc"
  = ["aaa. bbb."; "ccc."] /\
  AnalysisFlow.group_tokens AnalysisFlow.letters ["aaa"; "bbb"] = 6%Z /\
  length (AnalysisFlow.letters "aaa. bbb.") = 9%nat.
Proof. repeat split; vm_compute; reflexivity. Qed.

(** ** When the merge of chunk analyses fails *)

Section CombineCases.

Import Analysis AnalysisFlow.

Implicit Types (a c : gmap string json) (f : string).

Lemma extend_fields_error a fields e :
  fold_left (extend_field a) fields (inl e) = inl e.
Proof. induction fields as [ | f fields IH]; [reflexivity | exact IH]. Qed.

Lemma extend_all_error (analyses : list (gmap string json)) e :
  fold_left extend_all analyses (inl e) = inl e.
Proof.
  induction analyses as [ | a analyses IH]; [reflexivity | ].
  cbn [fold_left]. unfold extend_all at 2. rewrite extend_fields_error. exact IH.
Qed.

Lemma extend_field_cases a c f :
  c !! f = Some (JArray (list_of c f)) ->
  (iterable a f /\
   extend_field a (inr c) f
   = inr (<[f := JArray (list_of c f ++ items_of a f)]> c)) \/
  (~ iterable a f /\ exists e, extend_field a (inr c) f = inl e).
Proof.
  intros Hc. unfold extend_field, getitem, iterable, items_of. cbn [bind].
  destruct (a !! f) as [v | ] eqn:Ha; cbn [bind].
  - rewrite Hc. destruct (iterate v) as [e | items] eqn:Hv; cbn [bind].
    + right. split; [ | eauto]. intros (v' & items & [= <-] & Hit). congruence.
    + left. split; [eauto | reflexivity].
  - right. split; [ | eauto]. intros (v' & items & Hsome & _). discriminate.
Qed.

Lemma extend_fields_cases a fields : forall c,
  List.NoDup fields ->
  (forall f, In f fields -> c !! f = Some (JArray (list_of c f))) ->
  ((forall f, In f fields -> iterable a f) /\
   exists c', fold_left (extend_field a) fields (inr c) = inr c' /\
     (forall f, In f fields ->
        c' !! f = Some (JArray (list_of c f ++ items_of a f))) /\
     (forall k, ~ In k fields -> c' !! k = c !! k)) \/
  (~ (forall f, In f fields -> iterable a f) /\
   exists e, fold_left (extend_field a) fields (inr c) = inl e).
Proof.
  induction fields as [ | f fs IH]; intros c Hnodup Hc.
  - left. split; [intros f [] | ]. exists c. cbn. intuition.
  - apply List.NoDup_cons_iff in Hnodup as [Hfresh Hnodup]. cbn [fold_left].
    destruct (extend_field_cases a c f (Hc f ltac:(left; reflexivity)))
      as [[Hit ->] | [Hnot [e ->]]].
    + set (c1 := <[f := JArray (list_of c f ++ items_of a f)]> c).
      assert (Hother : forall g, g <> f -> c1 !! g = c !! g).
      { intros g Hg. unfold c1. apply lookup_insert_ne. congruence. }
      destruct (IH c1 Hnodup) as [[Hall (c' & Hfold & Hin & Hout)] | [Hnot Herr]].
      { intros g Hg. assert (g <> f) by (intros ->; contradiction).
        unfold list_of at 1. rewrite !Hother by assumption.
        fold (list_of c g). apply Hc. right. exact Hg. }
      * left. split; [intros g [<- | Hg]; auto | ].
        exists c'. split; [exact Hfold | split].
        -- intros g [<- | Hg].
           ++ rewrite Hout by exact Hfresh. unfold c1. apply lookup_insert_eq.
           ++ assert (g <> f) by (intros ->; contradiction).
              rewrite Hin by exact Hg. unfold list_of at 1.
              rewrite Hother by assumption. reflexivity.
        -- intros k Hk. rewrite Hout by (intros H; apply Hk; right; exact H).
           apply Hother. intros ->. apply Hk. left. reflexivity.
      * right. split; [ | exact Herr]. intros Hall. apply Hnot.
        intros g Hg. apply Hall. right. exact Hg.
    + right. split.
      * intros Hall. apply Hnot. apply Hall. left. reflexivity.
      * exists e. apply extend_fields_error.
Qed.

Lemma extend_analyses_cases (analyses : list (gmap string json)) : forall c,
  (forall f, In f list_fields -> c !! f = Some (JArray (list_of c f))) ->
  (Forall (fun a => forall f, In f list_fields -> iterable a f) analyses /\
   exists c', fold_left extend_all analyses (inr c) = inr c' /\
     (forall f, In f list_fields ->
        c' !! f = Some (JArray (list_of c f
                                ++ concat (map (fun a => items_of a f) analyses)))) /\
     (forall k, ~ In k list_fields -> c' !! k = c !! k)) \/
  (~ Forall (fun a => forall f, In f list_fields -> iterable a f) analyses /\
   exists e, fold_left extend_all analyses (inr c) = inl e).
Proof.
  induction analyses as [ | a rest IH]; intros c Hc.
  - left. split; [constructor | ]. exists c. cbn [fold_left map concat].
    split; [reflexivity | split; [ | reflexivity]].
    intros f Hf. rewrite app_nil_r. apply Hc. exact Hf.
  - cbn [fold_left].
    change (extend_all (inr c) a)
      with (fold_left (extend_field a) list_fields (inr c)).
    destruct (extend_fields_cases a list_fields c list_fields_nodup Hc)
      as [[Hit (c1 & -> & Hin & Hout)] | [Hnot [e ->]]].
    + destruct (IH c1) as [[Hall (c' & Hfold & Hin' & Hout')] | [Hnot Herr]].
      { intros f Hf. rewrite (Hin f Hf). f_equal. f_equal. symmetry.
        apply list_of_lookup. apply Hin. exact Hf. }
      * left. split; [constructor; assumption | ].
        exists c'. split; [exact Hfold | split].
        -- intros f Hf. rewrite (Hin' f Hf).
           rewrite (list_of_lookup c1 f _ (Hin f Hf)).
           cbn [map concat]. rewrite <- app_assoc. reflexivity.
        -- intros k Hk. rewrite Hout', Hout by exact Hk. reflexivity.
      * right. split; [ | exact Herr]. intros Hall. apply Hnot.
        apply Forall_inv_tail in Hall. exact Hall.
    + right. split.
      * intros Hall. apply Hnot. apply Forall_inv in Hall. exact Hall.
      * exists e. apply extend_all_error.
Qed.

(** [_combine_analyses] returns a merged record exactly when there is a
    first analysis holding the three scalar fields and every analysis
    holds every list field with a value that can be iterated; otherwise
    it raises ([IndexError], [KeyError] or [TypeError]) and returns
    nothing.  When it returns, every list field is the concatenation, in
    order, of what iterating over the chunks' values yields (the items of
    a list, the characters of a string, the keys of an object), and the
    scalar fields are those of the first analysis. *)
Theorem combine_succeeds_iff (analyses : list (gmap string json)) :
  ((exists combined, _combine_analyses analyses = inr combined)
   <-> (exists first rest, analyses = first :: rest /\
          forall f, In f scalar_fields -> is_Some (first !! f)) /\
       Forall (fun a => forall f, In f list_fields -> iterable a f) analyses) /\
  (forall combined, _combine_analyses analyses = inr combined ->
     (forall f, In f list_fields ->
        combined !! f
        = Some (JArray (concat (map (fun a => items_of a f) analyses)))) /\
     (forall f first, In f scalar_fields -> head analyses = Some first ->
        combined !! f = first !! f)).
Proof.
  destruct analyses as [ | first rest].
  { split; [split | ].
    - intros [combined H]. discriminate H.
    - intros [(first & rest & H & _) _]. discriminate H.
    - intros combined H. discriminate H. }
  unfold _combine_analyses. cbn [bind]. unfold getitem.
  destruct (first !! "identification") as [identification | ] eqn:Hi; cbn [bind];
    [destruct (first !! "participants") as [participants | ] eqn:Hp; cbn [bind];
     [destruct (first !! "structure") as [structure | ] eqn:Hs; cbn [bind] | ] | ].
  - match goal with |- context [fold_left extend_all _ (inr ?m)] => set (c := m) end.
    assert (Hc : forall f, In f list_fields -> c !! f = Some (JArray (list_of c f))).
    { intros f Hf. cbn in Hf.
      repeat (destruct Hf as [<- | Hf]; [reflexivity | ]). contradiction. }
    assert (Hscalars : forall f, In f scalar_fields -> is_Some (first !! f)).
    { intros f Hf. cbn in Hf. destruct Hf as [<- | [<- | [<- | []]]]; eauto. }
    destruct (extend_analyses_cases (first :: rest) c Hc)
      as [[Hall (c' & -> & Hin & Hout)] | [Hnot [e ->]]].
    + split; [split | ].
      * intros _. split; [eauto | exact Hall].
      * intros _. eauto.
      * intros combined [= <-]. split.
        -- intros f Hf. rewrite (Hin f Hf). f_equal. f_equal.
           cbn in Hf. repeat (destruct Hf as [<- | Hf]; [reflexivity | ]).
           contradiction.
        -- intros f first' Hf [= <-]. rewrite Hout.
           ++ cbn in Hf. destruct Hf as [<- | [<- | [<- | []]]]; symmetry; assumption.
           ++ cbn in Hf. destruct Hf as [<- | [<- | [<- | []]]]; cbn;
                intuition discriminate.
    + split; [split | ].
      * intros [combined H]. discriminate H.
      * intros [_ Hall]. contradiction.
      * intros combined H. discriminate H.
  - split; [split | ].
    + intros [combined H]. discriminate H.
    + intros [(first' & rest' & [= <- <-] & Hscalars) _].
      destruct (Hscalars "structure") as [x Hx]; [cbn; tauto | congruence].
    + intros combined H. discriminate H.
  - split; [split | ].
    + intros [combined H]. discriminate H.
    + intros [(first' & rest' & [= <- <-] & Hscalars) _].
      destruct (Hscalars "participants") as [x Hx]; [cbn; tauto | congruence].
    + intros combined H. discriminate H.
  - split; [split | ].
    + intros [combined H]. discriminate H.
    + intros [(first' & rest' & [= <- <-] & Hscalars) _].
      destruct (Hscalars "identification") as [x Hx]; [cbn; tauto | congruence].
    + intros combined H. discriminate H.
Qed.

End CombineCases.

(** Extending a list by a string adds its characters, not its bytes. *)
Lemma characters_of_accented_word :
  Analysis.characters "été"
  = [Analysis.JString "é"; Analysis.JString "t"; Analysis.JString "é"] /\
  String.length "été" = 5%nat.
Proof. split; vm_compute; reflexivity. Qed.

(** ** Analysis of one transcript *)

Section AnalyzeIndividualFacts.

Import Analysis AnalysisFlow.

Variable encode : string -> list Z.
Variable _analyze_chunk : string -> string -> App.call (gmap string json).






End AnalyzeIndividualFacts.

(** ** Time windows of the transcription *)

Section WindowFacts.

Import Windows.

Lemma window_count_bounds (d : Z) :
  let n := ((d + chunk_size - 1) / chunk_size)%Z in
  (chunk_size * n < d + chunk_size /\ d <= chunk_size * n)%Z.
Proof. cbn zeta. unfold chunk_size. Z.div_mod_to_equations. lia. Qed.

Lemma window_lookup (d : Z) (k : nat) a b :
  map (fun i => (i, Z.min (i + chunk_size) d)) (range_from_zero d chunk_size) !! k
  = Some (a, b) ->
  (Z.of_nat k < (d + chunk_size - 1) / chunk_size)%Z /\
  a = (Z.of_nat k * chunk_size)%Z /\ b = Z.min (a + chunk_size) d.
Proof.
  unfold range_from_zero. rewrite !list_lookup_fmap.
  destruct (seq 0 _ !! k) as [k' | ] eqn:Hk; [ | discriminate].
  apply lookup_seq in Hk as [-> Hlt]. cbn. intros [= <- <-].
  split; [lia | split; reflexivity].
Qed.

(** For an integer duration the windows tile the recording: window [k]
    starts at [600 * k], each window is at most 600 long and not empty,
    each ends where the next one starts, and the last one ends at the
    duration; there is no window for a duration of zero or less.  For a
    float duration the computation raises [TypeError]. *)
Theorem chunk_windows_tile_duration (d : Z) :
  (forall q, chunk_windows (PyFloat q) = inl Analysis.TypeError) /\
  exists ws,
    chunk_windows (PyInt d) = inr ws /\
    Z.of_nat (length ws) = Z.max 0 ((d + 599) / 600) /\
    (ws = [] <-> (d <= 0)%Z) /\
    (forall (k : nat) a b, ws !! k = Some (a, b) ->
       a = (600 * Z.of_nat k)%Z /\ (a < b <= a + 600)%Z /\ (b <= d)%Z) /\
    (forall (k : nat) a b a' b',
       ws !! k = Some (a, b) -> ws !! S k = Some (a', b') -> b = a') /\
    (forall a b, ws !! (length ws - 1)%nat = Some (a, b) -> b = d).
Proof.
  split; [reflexivity | ].
  eexists. split; [reflexivity | ].
  pose proof (window_count_bounds d) as Hn. cbn zeta in Hn. unfold chunk_size in Hn.
  assert (Hlen : length (map (fun i => (i, Z.min (i + chunk_size) d))
                           (range_from_zero d chunk_size))
                 = Z.to_nat ((d + 599) / 600)).
  { unfold range_from_zero, chunk_size. rewrite !length_map, length_seq.
    f_equal. f_equal. lia. }
  assert (Heq : ((d + 600 - 1) / 600 = (d + 599) / 600)%Z) by (f_equal; lia).
  split; [rewrite Hlen; lia | split; [ | split; [ | split]]].
  - split.
    + intros Hnil. apply (f_equal (@length (Z * Z))) in Hnil.
      rewrite Hlen in Hnil. cbn in Hnil. lia.
    + intros Hd. apply length_zero_iff_nil. rewrite Hlen. lia.
  - intros k a b Hk. apply window_lookup in Hk as (Hlt & -> & ->).
    unfold chunk_size in *. lia.
  - intros k a b a' b' Hk Hk'.
    apply window_lookup in Hk as (Hlt & -> & ->).
    apply window_lookup in Hk' as (Hlt' & -> & _).
    unfold chunk_size in *. lia.
  - intros a b Hk. rewrite Hlen in Hk.
    apply window_lookup in Hk as (Hlt & -> & ->).
    unfold chunk_size in *. lia.
Qed.

End WindowFacts.

(** ** Merging transcripts: chunks without text *)

Section CombineChunksMore.

Import Transcription.

(** A chunk result without the [results] key, or without [channels]
    under it, adds nothing to the merged text, not even a space. *)
Theorem text_merge_skips_chunks_without_text (before after : list chunk)
    (c : chunk) :
  results c = None \/ (exists r, results c = Some r /\ channels r = None) ->
  _combine_chunks (before ++ c :: after) = _combine_chunks (before ++ after).
Proof.
  intros Hc. unfold _combine_chunks. rewrite !flat_map_app. cbn [flat_map].
  assert (Hnone : chunk_texts c = []).
  { unfold chunk_texts. destruct Hc as [-> | (r & -> & ->)]; reflexivity. }
  rewrite Hnone. reflexivity.
Qed.

End CombineChunksMore.

Lemma text_merge_skips_chunks_without_text_witness :
  let broken := {| Transcription.results := None |} in
  (Transcription.results broken = None
   \/ exists r, Transcription.results broken = Some r
                /\ Transcription.channels r = None) /\
  Transcription._combine_chunks
    ([Transcription.spoken "Bonjour"] ++ broken :: [Transcription.spoken "merci"])
  = "Bonjour merci".
Proof.
  intros broken. split; [left; reflexivity | ].
  rewrite (text_merge_skips_chunks_without_text [Transcription.spoken "Bonjour"]
             [Transcription.spoken "merci"] broken); [reflexivity | ].
  left. reflexivity.
Defined.

(** ** Results of processing a link *)

Section ProcessUrlFacts.

Import App.

Variable path : Type.
Variable extract_audio : string -> call (option path * option string).
Variable transcribe : option path -> call (option string).
Variable analyze_individual : string -> string -> call (option (gmap string Analysis.json)).
Variable cleanup : option path -> call unit.
Variable analyze_consolidated :
  list (gmap string Analysis.json) -> string -> call (option (gmap string Analysis.json)).

Lemma completed_analysis_not_empty (theme url transcript : string)
    (result : gmap string Analysis.json) :
  process_url path extract_audio transcribe analyze_individual cleanup theme url
  = Completed transcript result ->
  result <> ∅.
Proof.
  unfold process_url. intros H.
  repeat match type of H with
         | context [match ?x with _ => _ end] => destruct x eqn:?; try discriminate H
         end.
  all: injection H as <- <-; assumption.
Qed.

(** A link is reported as completed only with a transcript that is not
    empty and an analysis that is not empty, both as the collaborators
    returned them, after a clean-up that did not raise; the extraction
    had reported no error. *)
Theorem completed_result_is_whole (theme url transcript : string)
    (result : gmap string Analysis.json) :
  process_url path extract_audio transcribe analyze_individual cleanup theme url
  = Completed transcript result ->
  transcript <> "" /\ result <> ∅ /\
  exists audio_path,
    (extract_audio url = Return (audio_path, None)
     \/ extract_audio url = Return (audio_path, Some "")) /\
    transcribe audio_path = Return (Some transcript) /\
    analyze_individual transcript theme = Return (Some result) /\
    exists done, cleanup audio_path = Return done.
Proof.
  unfold process_url. intros H.
  repeat match type of H with
         | context [match ?x with _ => _ end] => destruct x eqn:?; try discriminate H
         end.
  all: injection H as <- <-.
  all: split; [discriminate | split; [assumption | ]].
  all: eexists; split; [first [left; reflexivity | right; reflexivity] | ].
  all: split; [eassumption | split; [eassumption | eauto]].
Qed.

(** [generate_consolidated_analysis] returns a value only when every
    link completed and the consolidated analysis returned that value for
    the analyses of all links, none of them empty, and the theme. *)
Theorem consolidated_value_needs_all_links (urls : list string) (theme : string)
    (order : list nat) (value : gmap string Analysis.json) :
  (forall i, (i < length urls)%nat -> In i order) ->
  returned (generate_consolidated_analysis path extract_audio transcribe
              analyze_individual cleanup analyze_consolidated urls theme order)
  = Some value ->
  let outcomes :=
    map (process_url path extract_audio transcribe analyze_individual cleanup theme)
      urls in
  forallb is_completed outcomes = true /\
  length (analyses_of outcomes) = length urls /\
  Forall (fun a => a <> ∅) (analyses_of outcomes) /\
  analyze_consolidated (analyses_of outcomes) theme = Return (Some value).
Proof.
  intros Hall. unfold generate_consolidated_analysis.
  rewrite gather_in_task_order by (rewrite length_map; exact Hall).
  set (outcomes := map _ urls). cbn zeta.
  pose proof (errors_of_nil outcomes) as Herr.
  destruct (errors_of outcomes) as [ | e es]; [ | discriminate].
  cbn [returned]. intros Hvalue.
  assert (Hdone : forallb is_completed outcomes = true) by (apply Herr; reflexivity).
  split; [exact Hdone | split; [ | split]].
  - rewrite analyses_of_length by exact Hdone. apply length_map.
  - assert (Hwhole : Forall (fun r => forall t a, r = Completed t a -> a <> ∅)
                       outcomes).
    { subst outcomes. clear. induction urls as [ | url urls' IH]; [constructor | ].
      cbn [map]. constructor; [ | exact IH].
      intros t a Hr. apply completed_analysis_not_empty in Hr. exact Hr. }
    clear -Hwhole. induction outcomes as [ | [e | t a] outcomes IH].
    + constructor.
    + apply IH. apply Forall_inv_tail in Hwhole. exact Hwhole.
    + change (analyses_of (Completed t a :: outcomes))
        with (a :: analyses_of outcomes).
      constructor.
      * apply Forall_inv in Hwhole. eapply Hwhole. reflexivity.
      * apply IH. apply Forall_inv_tail in Hwhole. exact Hwhole.
  - destruct (analyze_consolidated (analyses_of outcomes) theme) as [v | m];
      [congruence | discriminate].
Qed.

End ProcessUrlFacts.

(** ** Instances of the properties above *)


Lemma transcript_within_budget_is_one_chunk_witness :
  (AnalysisFlow.group_tokens AnalysisFlow.letters (Analysis.split "Bonjour. Merci")
   <= 4000)%Z /\
  Analysis._chunk_transcript AnalysisFlow.letters 4000 "Bonjour. Merci"
  = ["Bonjour. Merci."].
Proof.
  assert (H : (AnalysisFlow.group_tokens AnalysisFlow.letters
                 (Analysis.split "Bonjour. Merci") <= 4000)%Z)
    by (vm_compute; discriminate).
  split; [exact H | ].
  apply (transcript_within_budget_is_one_chunk AnalysisFlow.letters 4000
           "Bonjour. Merci" H).
Defined.



Lemma completed_result_is_whole_witness :
  App.sample_process_url "industrie" "https://youtu.be/a"
  = App.Completed "Bonjour. Merci."
      (Analysis.chunk_analysis "industrie" ["Bonjour. Merci."]) /\
  Analysis.chunk_analysis "industrie" ["Bonjour. Merci."] <> ∅.
Proof.
  assert (H : App.sample_process_url "industrie" "https://youtu.be/a"
              = App.Completed "Bonjour. Merci."
                  (Analysis.chunk_analysis "industrie" ["Bonjour. Merci."]))
    by (vm_compute; reflexivity).
  split; [exact H | ].
  destruct (completed_result_is_whole string App.sample_extract
              App.sample_transcribe App.sample_analyze App.sample_cleanup
              "industrie" "https://youtu.be/a" "Bonjour. Merci."
              (Analysis.chunk_analysis "industrie" ["Bonjour. Merci."]) H)
    as (_ & Hfull & _).
  exact Hfull.
Defined.

Lemma consolidated_value_needs_all_links_witness :
  let urls := ["https://youtu.be/a"; "https://youtu.be/b"] in
  (forall i, (i < length urls)%nat -> In i [1; 0]%nat) /\
  App.returned
    (App.generate_consolidated_analysis string App.sample_extract
       App.sample_transcribe App.sample_analyze App.sample_cleanup
       App.sample_consolidate urls "industrie" [1; 0]%nat)
  = Some {[ "theme" := Analysis.JString "industrie" ]} /\
  length (App.analyses_of (map (App.sample_process_url "industrie") urls))
  = length urls.
Proof.
  intros urls.
  assert (Hall : forall i, (i < length urls)%nat -> In i [1; 0]%nat).
  { intros i Hi. do 2 (destruct i as [ | i]; [cbn; tauto | ]). cbn in Hi. lia. }
  assert (Hvalue : App.returned
            (App.generate_consolidated_analysis string App.sample_extract
               App.sample_transcribe App.sample_analyze App.sample_cleanup
               App.sample_consolidate urls "industrie" [1; 0]%nat)
          = Some {[ "theme" := Analysis.JString "industrie" ]})
    by (vm_compute; reflexivity).
  split; [exact Hall | split; [exact Hvalue | ]].
  destruct (consolidated_value_needs_all_links string App.sample_extract
              App.sample_transcribe App.sample_analyze App.sample_cleanup
              App.sample_consolidate urls "industrie" [1; 0]%nat _ Hall Hvalue)
    as (_ & Hlen & _).
  exact Hlen.
Defined.
